(** * proxy_tower: models/pattern.py

    A shallow embedding of the response checker, the per-pattern
    time-bucket counters, the prefix trie and the pattern manager of
    [src/models/pattern.py], with the properties the specification
    states about them.

    Conventions.
    - A Python [str] is a [string]; every character is one code point
      below 256.
    - A Python [int] is a [Z] (unbounded).
    - [None] is the [None] of an [option].
    - A call that may raise returns a [result]: [Ret v] or [Raise e].
    - A Python [float] is a binary64 number, the kernel's primitive
      float; where only the shape of a computation matters the float
      operations are parameters.
    - The decoder of [json] is modelled on the records of this module;
      its functions return an [option], and [None] is no statement
      about the program.
    - An [OrderedDict] is an association list in insertion order; a
      plain [dict] whose order is never observed by a property, the
      trie and the remote hash are [gmap]s over strings. *)

From Stdlib Require Import ZArith Ascii DecimalString QArith_base.
From Stdlib Require PrimFloat FloatOps Uint63 SpecFloat.
From stdpp Require Import gmap strings list fin_maps.

Local Open Scope Z_scope.

(* ===================================================================== *)
(** * Python values and exceptions *)
(* ===================================================================== *)

Inductive exn : Type :=
| TypeError
| KeyError (key : string)
| ZeroDivisionError.

Inductive result (A : Type) : Type :=
| Ret (a : A)
| Raise (e : exn).
Arguments Ret {A} a.
Arguments Raise {A} e.

(** Sequencing: an exception of the first call skips the rest. *)
#[global] Instance result_ret : MRet result := @Ret.
#[global] Instance result_bind : MBind result := λ A B k r,
  match r with
  | Ret a => k a
  | Raise e => Raise e
  end.

#[global] Instance result_fmap : FMap result := λ A B f r,
  match r with
  | Ret a => Ret (f a)
  | Raise e => Raise e
  end.

(** [str(n)] and ['{}'.format(n)] for an [int]. *)
Definition str_int (n : Z) : string := NilEmpty.string_of_int (Z.to_int n).

(** ['{}'.format(v)] for a string or [None]. *)
Definition format_opt_str (v : option string) : string :=
  match v with
  | Some s => s
  | None => "None"
  end.

(** ['{}'.format(c)] for an integer or [None]. *)
Definition format_opt_int (c : option Z) : string :=
  match c with
  | Some n => str_int n
  | None => "None"
  end.

(** [t.startswith(w)] *)
Fixpoint startswith (t w : string) {struct w} : bool :=
  match w, t with
  | EmptyString, _ => true
  | String a w', String b t' => if decide (a = b) then startswith t' w' else false
  | String _ _, EmptyString => false
  end.

(** [w in t] for two strings: [w] occurs in [t] as a contiguous block. *)
Fixpoint str_in (w t : string) : bool :=
  startswith t w ||
  match t with
  | EmptyString => false
  | String _ t' => str_in w t'
  end.

(** Characters [str.strip()] removes: the code points below 256 on which
    [str.isspace] holds. *)
Definition isspace (c : ascii) : bool :=
  let n := N_of_ascii c in
  ((9 <=? n) && (n <=? 13) || (28 <=? n) && (n <=? 32) || (n =? 133) || (n =? 160))%N.

Fixpoint lstrip (s : string) : string :=
  match s with
  | EmptyString => EmptyString
  | String c s' => if isspace c then lstrip s' else s
  end.

(** [rstrip] keeps a character when it is not a space or when something
    survives to its right. *)
Fixpoint rstrip (s : string) : string :=
  match s with
  | EmptyString => EmptyString
  | String c s' =>
      match rstrip s' with
      | EmptyString => if isspace c then EmptyString else String c EmptyString
      | r => String c r
      end
  end.

Definition strip (s : string) : string := rstrip (lstrip s).

(** Truth value of a string or [None] in a condition. *)
Definition truthy (v : option string) : bool :=
  match v with
  | Some (String _ _) => true
  | _ => false
  end.

(* ===================================================================== *)
(** * Checker *)
(* ===================================================================== *)

(** What [etree.HTML(html).xpath(xpath)[0]] comes to.  The document
    library is a collaborator: its answer is one of a first result, no
    result at all ([IndexError]) or any other fault, carried as the
    formatted trace. *)
Inductive xpath_value : Type :=
| XStr (s : string)
| XNode.

Inductive xpath_outcome : Type :=
| XFirst (v : xpath_value)
| XIndexError
| XFault (trace : string).

Definition xpath_value_eq (v : xpath_value) (value : string) : bool :=
  match v with
  | XStr s => bool_decide (s = value)
  | XNode => false
  end.

Record Checker : Type := mkChecker {
  global_blacklist : list string
}.

(** [Checker.__init__]: [global_blacklist or list()]. *)
Definition Checker_init (global_blacklist : option (list string)) : Checker :=
  match global_blacklist with
  | Some (w :: l) => mkChecker (w :: l)
  | _ => mkChecker []
  end.

Definition _status_code_checker (status_code : option Z) : bool :=
  match status_code with
  | None => false
  | Some c => (c =? 404) || (c <? 400)
  end.

Section Checker.

Variable xpath_first : string → string → xpath_outcome.

Definition _xpath_checker (html xpath value : string) : option string :=
  match xpath_first html xpath with
  | XFirst v =>
      if xpath_value_eq v value then None
      else Some "xpath check failed, value not equal"
  | XIndexError => Some ("xpath check failed, " +:+ xpath +:+ " not found")
  | XFault trace => Some trace
  end.

(** The [for word in self.global_blacklist] loop: the first word of
    the list that occurs in the text. *)
Fixpoint blacklist_hit (words : list string) (text : string) : option string :=
  match words with
  | [] => None
  | word :: rest => if str_in word text then Some word else blacklist_hit rest text
  end.

(** [value not in text]: a [TypeError] when [value] is [None]. *)
Definition not_in (value : option string) (text : string) : result bool :=
  match value with
  | Some v => Ret (negb (str_in v text))
  | None => Raise TypeError
  end.

Definition check (self : Checker) (status_code : option Z) (text : string)
    (rule value : option string) : result (option string) :=
  if negb (_status_code_checker status_code) then
    Ret (Some ("status_code check failed, get " +:+ format_opt_int status_code))
  else
    match blacklist_hit (global_blacklist self) text with
    | Some word => Ret (Some ("global blacklist check failed, get " +:+ word))
    | None =>
        if bool_decide (rule = Some "whitelist") then
          missing ← not_in value text;
          if (missing : bool) then
            Ret (Some ("whitelist check failed, " +:+ format_opt_str value +:+ " not found"))
          else Ret None
        else
          (* [rule and value and ...]: [strip] is only reached on two
             non-empty strings *)
          match rule, value with
          | Some r, Some v =>
              if truthy rule && truthy value
                 && negb (String.length (strip r) =? 0)%nat
                 && negb (String.length (strip v) =? 0)%nat
              then Ret (_xpath_checker text r v)
              else Ret None
          | _, _ => Ret None
          end
    end.

End Checker.

(* ===================================================================== *)
(** * OrderedDict *)
(* ===================================================================== *)

(** A counter maps a time label to a count and remembers the order in
    which the labels came in. *)
Definition OrderedDict : Type := list (string * Z).

Definition od_keys (c : OrderedDict) : list string := c.*1.

(** [c.get(k)] *)
Fixpoint od_get (k : string) (c : OrderedDict) : option Z :=
  match c with
  | [] => None
  | (k', v) :: c' => if decide (k' = k) then Some v else od_get k c'
  end.

(** [k in c] *)
Definition od_mem (k : string) (c : OrderedDict) : bool :=
  match od_get k c with
  | Some _ => true
  | None => false
  end.

(** Assignment to a key that is present: the entry keeps its place. *)
Fixpoint od_replace (k : string) (v : Z) (c : OrderedDict) : OrderedDict :=
  match c with
  | [] => []
  | (k', v') :: c' =>
      if decide (k' = k) then (k', v) :: c' else (k', v') :: od_replace k v c'
  end.

(** [c[k] = v]: a new key goes to the end. *)
Definition od_setitem (k : string) (v : Z) (c : OrderedDict) : OrderedDict :=
  if od_mem k c then od_replace k v c else c ++ [(k, v)].

(** [c.popitem(last=False)], the dictionary that is left. *)
Definition od_popitem_first (c : OrderedDict) : result OrderedDict :=
  match c with
  | [] => Raise (KeyError "dictionary is empty")
  | _ :: c' => Ret c'
  end.

(** [for _ in range(n): c.popitem(last=False)] *)
Fixpoint od_popitems (n : nat) (c : OrderedDict) : result OrderedDict :=
  match n with
  | O => Ret c
  | S n' => c' ← od_popitem_first c; od_popitems n' c'
  end.

(* ===================================================================== *)
(** * Pattern *)
(* ===================================================================== *)

Record Pattern : Type := mkPattern {
  _pattern_str : string;
  checker : Checker;
  rule : option string;
  value : option string;
  success_counter : OrderedDict;
  fail_counter : OrderedDict
}.

(** [Pattern.__init__]: both counters start empty. *)
Definition Pattern_init (pattern_str : string) (rule value : option string)
    (checker : Checker) : Pattern :=
  mkPattern pattern_str checker rule value [] [].

(** [str(pattern)] *)
Definition Pattern_str (self : Pattern) : string := _pattern_str self.

Definition with_counter (self : Pattern) (valid : bool) (c : OrderedDict) : Pattern :=
  if valid
  then mkPattern (_pattern_str self) (checker self) (rule self) (value self)
                 c (fail_counter self)
  else mkPattern (_pattern_str self) (checker self) (rule self) (value self)
                 (success_counter self) c.

Definition counter_of (self : Pattern) (valid : bool) : OrderedDict :=
  if valid then success_counter self else fail_counter self.

(** The body of [Pattern.counter] on the chosen map. *)
Definition counter_body (now : string) (c : OrderedDict) : result OrderedDict :=
  let c1 :=
    match od_get now c with
    | Some n => od_setitem now (n + 1) c
    | None => od_setitem now 1 c
    end in
  let del_num := Z.of_nat (length c1) - 10 in
  if del_num >? 0 then od_popitems (Z.to_nat del_num) c1 else Ret c1.

(** [Pattern.counter(now, valid)], run alone (the lock is free). *)
Definition counter (self : Pattern) (now : string) (valid : bool) : result Pattern :=
  c ← counter_body now (counter_of self valid);
  Ret (with_counter self valid c).

(** A run of calls on one pattern, one after the other. *)
Fixpoint counter_calls (self : Pattern) (calls : list (string * bool)) : result Pattern :=
  match calls with
  | [] => Ret self
  | (now, valid) :: rest => p ← counter self now valid; counter_calls p rest
  end.

(** What one call of [counter] leaves in the chosen map. *)
Definition counter_next (now : string) (c : OrderedDict) : OrderedDict :=
  let c1 := od_setitem now (default 0 (od_get now c) + 1) c in
  drop (length c1 - 10) c1.

(** The labels after a call: a known label keeps its place, a new one
    goes last, and what exceeds ten leaves from the front. *)
Definition keys_next (now : string) (ks : list string) : list string :=
  let k1 := if decide (now ∈ ks) then ks else ks ++ [now] in
  drop (length k1 - 10) k1.

(** The retention rule in the words of the specification, one label at
    a time: at most ten labels are held; a label that is held stays
    where it is; a new label goes last, and when ten are held the one
    that came in first leaves for it. *)
Definition fifo_retain (ks : list string) (now : string) : list string :=
  if decide (now ∈ ks) then ks
  else if decide (length ks < 10)%nat then ks ++ [now]
  else drop 1 ks ++ [now].

(** The labels sent to one of the two maps by a run of calls. *)
Definition calls_for (valid : bool) (calls : list (string * bool)) : list string :=
  (filter (λ c, c.2 = valid) calls).*1.

(** A pattern as the program makes it: built by the constructor, then
    changed by calls of [counter] only. *)
Definition reachable (p : Pattern) : Prop :=
  ∃ pattern_str rule value checker calls,
    counter_calls (Pattern_init pattern_str rule value checker) calls = Ret p.

Definition counts_positive (c : OrderedDict) : Prop := Forall (λ kv, 0 < kv.2) c.

(** The response object: a status code or [None], and the body text. *)
Record Response : Type := mkResponse {
  status : option Z;
  text : string
}.

Section PatternCheck.

Variable xpath_first : string → string → xpath_outcome.

(** [Pattern.check(response)] *)
Definition Pattern_check (self : Pattern) (response : Response) : result (list string) :=
  r ← check xpath_first (checker self) (status response) (text response)
                        (rule self) (value self);
  match r with
  | None => Ret []
  | Some diagnostic => Ret [diagnostic]
  end.

End PatternCheck.

(* ===================================================================== *)
(** * Pattern.success_rate *)
(* ===================================================================== *)

(** [c[k]] *)
Definition od_getitem (k : string) (c : OrderedDict) : result Z :=
  match od_get k c with
  | Some v => Ret v
  | None => Raise (KeyError k)
  end.

Section SuccessRate.

(** The quotient of two counts is a Python [float].  The float
    arithmetic is the interpreter's: the model takes the type and the
    two operations the property uses as parameters. *)
Variable float : Type.
Variable truediv : Z → Z → float.        (* [a / b], [b] not zero *)
Variable mul_int : float → Z → float.    (* [x * n] *)

Inductive number : Type :=
| NInt (n : Z)
| NFloat (x : float).

(** [a / b] on two [int]s *)
Definition int_truediv (a b : Z) : result float :=
  if b =? 0 then Raise ZeroDivisionError else Ret (truediv a b).

(** One turn of the loop of [success_rate]: the entry of [y] for the
    label [t]. *)
Definition rate_at (self : Pattern) (t : string) : result number :=
  if od_mem t (fail_counter self) then
    s ← od_getitem t (success_counter self);
    f ← od_getitem t (fail_counter self);
    s' ← od_getitem t (success_counter self);
    q ← int_truediv s (f + s');
    Ret (NFloat (mul_int q 100))
  else Ret (NInt 100).

Fixpoint success_rate_loop (self : Pattern) (ts : list string)
    (x : list string) (y : list number) : result (list string * list number) :=
  match ts with
  | [] => Ret (x, y)
  | t :: ts' =>
      v ← rate_at self t;
      success_rate_loop self ts' (x ++ [t]) (y ++ [v])
  end.

Definition success_rate (self : Pattern) : result (list string * list number) :=
  success_rate_loop self (od_keys (success_counter self)) [] [].

End SuccessRate.

Arguments NInt {float} n.
Arguments NFloat {float} x.

(** The entry of the series for a label that has the count [s] in
    the success map. *)
Definition rate_entry {float : Type} (truediv : Z → Z → float)
    (mul_int : float → Z → float) (fc : OrderedDict) (t : string) (s : Z) : number float :=
  match od_get t fc with
  | Some f => NFloat (mul_int (truediv s (f + s)) 100)
  | None => NInt 100
  end.

(** The same two operations without rounding, over the rationals. *)
Definition exact_truediv (a b : Z) : Q := Qdiv (inject_Z a) (inject_Z b).
Definition exact_mul_int (x : Q) (n : Z) : Q := Qmult x (inject_Z n).

(** ** The interpreter's floats

    A Python [float] is an IEEE 754 binary64 number, the primitive
    float of the kernel.  The counts are numbers of calls within one
    minute; for operands below [2 ^ 53] the conversion of an [int] to
    [float] is exact, and [a / b] on two such [int]s, the correctly
    rounded quotient, is the binary64 division of the two converted
    operands. *)

(** [float(n)], for [0 ≤ n < 2 ^ 53] *)
Definition py_float (n : Z) : PrimFloat.float := PrimFloat.of_uint63 (Uint63.of_Z n).

(** [a / b] on two [int]s below [2 ^ 53], [b] not zero *)
Definition py_truediv (a b : Z) : PrimFloat.float := PrimFloat.div (py_float a) (py_float b).

(** [x * n]: the [int] is converted, the product rounded. *)
Definition py_mul_int (x : PrimFloat.float) (n : Z) : PrimFloat.float :=
  PrimFloat.mul x (py_float n).

(** Every count of the map is below [b]. *)
Definition counts_below (b : Z) (c : OrderedDict) : Prop := Forall (λ kv, kv.2 < b) c.

(** The rational number a finite float stands for. *)
Definition float_exact (x : PrimFloat.float) : option Q :=
  match FloatOps.Prim2SF x with
  | SpecFloat.S754_zero _ => Some (inject_Z 0)
  | SpecFloat.S754_finite s m e =>
      let n := if s then Z.neg m else Z.pos m in
      Some (if 0 <=? e then inject_Z (n * 2 ^ e) else Qmake n (Z.to_pos (2 ^ (- e))))
  | _ => None
  end.

(* ===================================================================== *)
(** * The serialized pattern record (json.dumps / json.loads) *)
(* ===================================================================== *)

(** The records this module writes and reads are flat JSON objects whose
    values are strings or [null]; the model of [json] covers these. *)
Inductive jscalar : Type :=
| JNull
| JStr (s : string).

(** A dict literal, in the order its keys are written. *)
Definition jdict : Type := list (string * jscalar).

Definition dquote : ascii := ascii_of_N 34.
Definition backslash : ascii := ascii_of_N 92.

Definition hex_digit (n : N) : ascii :=
  if (n <? 10)%N then ascii_of_N (48 + n) else ascii_of_N (87 + n).

(** [json.dumps] with [ensure_ascii]: everything outside the printable
    ASCII range, the quote and the backslash are escaped. *)
Definition escape_char (c : ascii) : string :=
  let n := N_of_ascii c in
  if (n =? 34)%N then String backslash (String dquote EmptyString)
  else if (n =? 92)%N then String backslash (String backslash EmptyString)
  else if (n =? 10)%N then String backslash "n"
  else if (n =? 13)%N then String backslash "r"
  else if (n =? 9)%N then String backslash "t"
  else if (n =? 8)%N then String backslash "b"
  else if (n =? 12)%N then String backslash "f"
  else if ((n <? 32) || (126 <? n))%N then
    String backslash
      ("u00" +:+ String (hex_digit (n / 16)) (String (hex_digit (n mod 16)) EmptyString))
  else String c EmptyString.

Fixpoint escape (s : string) : string :=
  match s with
  | EmptyString => EmptyString
  | String c s' => escape_char c +:+ escape s'
  end.

Definition dumps_str (s : string) : string :=
  String dquote (escape s +:+ String dquote EmptyString).

Definition dumps_scalar (v : jscalar) : string :=
  match v with
  | JNull => "null"
  | JStr s => dumps_str s
  end.

Fixpoint dumps_items (d : jdict) : string :=
  match d with
  | [] => EmptyString
  | (k, v) :: d' =>
      dumps_str k +:+ ": " +:+ dumps_scalar v +:+
      match d' with
      | [] => EmptyString
      | _ :: _ => ", " +:+ dumps_items d'
      end
  end.

(** [json.dumps(d)] *)
Definition dumps (d : jdict) : string := "{" +:+ dumps_items d +:+ "}".

Definition hex_val (c : ascii) : option N :=
  let n := N_of_ascii c in
  if ((48 <=? n) && (n <=? 57))%N then Some (n - 48)%N
  else if ((97 <=? n) && (n <=? 102))%N then Some (n - 87)%N
  else if ((65 <=? n) && (n <=? 70))%N then Some (n - 55)%N
  else None.

(** The character a one-letter escape stands for. *)
Definition unescape_letter (e : ascii) : option ascii :=
  let n := N_of_ascii e in
  if (n =? 34)%N then Some dquote
  else if (n =? 92)%N then Some backslash
  else if (n =? 47)%N then Some (ascii_of_N 47)
  else if (n =? 98)%N then Some (ascii_of_N 8)
  else if (n =? 102)%N then Some (ascii_of_N 12)
  else if (n =? 110)%N then Some (ascii_of_N 10)
  else if (n =? 114)%N then Some (ascii_of_N 13)
  else if (n =? 116)%N then Some (ascii_of_N 9)
  else None.

Definition cons_fst (c : ascii) (r : string * string) : string * string :=
  (String c r.1, r.2).

(** ** The decoder on the records of this module

    [json.loads] is modelled on the documents this module writes
    itself, and a little beyond: one object whose members are strings
    or [null], with any white space between the tokens and any escape
    that stands for a code point below 256.  On such a text the
    functions below give [Some] of what the decoder returns.  [None]
    says nothing about the decoder: the text is malformed, or it is JSON
    of another form (numbers, booleans, nested values, escapes above
    [00ff]), which the strings and records of this model cannot hold. *)

(** The decoder's string scanner, started after the opening quote: the
    decoded string and what follows the closing quote. *)
Fixpoint scanstring (s : string) : option (string * string) :=
  match s with
  | EmptyString => None
  | String c s' =>
      let n := N_of_ascii c in
      if (n =? 34)%N then Some (EmptyString, s')
      else if (n =? 92)%N then
        match s' with
        | EmptyString => None
        | String e s'' =>
            if (N_of_ascii e =? 117)%N then
              match s'' with
              | String h1 (String h2 (String h3 (String h4 s3))) =>
                  match hex_val h1, hex_val h2, hex_val h3, hex_val h4 with
                  | Some 0%N, Some 0%N, Some a, Some b =>
                      cons_fst (ascii_of_N (16 * a + b)) <$> scanstring s3
                  | _, _, _, _ => None
                  end
              | _ => None
              end
            else
              match unescape_letter e with
              | Some c' => cons_fst c' <$> scanstring s''
              | None => None
              end
        end
      else if (n <? 32)%N then None
      else cons_fst c <$> scanstring s'
  end.

(** JSON white space between tokens. *)
Definition is_json_ws (c : ascii) : bool :=
  let n := N_of_ascii c in
  ((n =? 32) || (n =? 9) || (n =? 10) || (n =? 13))%N.

Fixpoint skip_ws (s : string) : string :=
  match s with
  | EmptyString => EmptyString
  | String c s' => if is_json_ws c then skip_ws s' else s
  end.

Fixpoint str_drop (n : nat) (s : string) : string :=
  match n, s with
  | O, _ => s
  | S n', String _ s' => str_drop n' s'
  | S _, EmptyString => EmptyString
  end.

(** A string literal at the head of [s]. *)
Definition parse_str (s : string) : option (string * string) :=
  match s with
  | String c s' => if (N_of_ascii c =? 34)%N then scanstring s' else None
  | EmptyString => None
  end.

Definition parse_scalar (s : string) : option (jscalar * string) :=
  if startswith s "null" then Some (JNull, str_drop 4 s)
  else '(v, r) ← parse_str s; Some (JStr v, r).

(** The members of an object after the opening brace, up to and
    including the closing one.  Every member uses up at least one
    character, so the length of the text is fuel enough. *)
Fixpoint parse_items (fuel : nat) (s : string) : option (jdict * string) :=
  match fuel with
  | O => None
  | S fuel' =>
      '(k, s1) ← parse_str (skip_ws s);
      match skip_ws s1 with
      | String colon s2 =>
          if (N_of_ascii colon =? 58)%N then
            '(v, s3) ← parse_scalar (skip_ws s2);
            match skip_ws s3 with
            | String sep s4 =>
                if (N_of_ascii sep =? 44)%N then
                  '(d, r) ← parse_items fuel' s4; Some ((k, v) :: d, r)
                else if (N_of_ascii sep =? 125)%N then Some ([(k, v)], s4)
                else None
            | EmptyString => None
            end
          else None
      | EmptyString => None
      end
  end.

(** [json.loads(s)] on an object of strings and nulls, members in the
    order of the text. *)
Definition loads (s : string) : option jdict :=
  match skip_ws s with
  | String brace s1 =>
      if (N_of_ascii brace =? 123)%N then
        '(d, r) ←
          match skip_ws s1 with
          | String c s2 =>
              if (N_of_ascii c =? 125)%N then Some ([], s2)
              else parse_items (String.length s1) s1
          | EmptyString => None
          end;
        match skip_ws r with
        | EmptyString => Some d
        | String _ _ => None
        end
      else None
  | EmptyString => None
  end.

(** [d[k]] on a decoded object: of two members with one name the later
    one counts. *)
Fixpoint jdict_get (k : string) (d : jdict) : option jscalar :=
  match d with
  | [] => None
  | (k', v) :: d' =>
      match jdict_get k d' with
      | Some v' => Some v'
      | None => if decide (k' = k) then Some v else None
      end
  end.

Definition jscalar_of (v : option string) : jscalar :=
  match v with
  | Some s => JStr s
  | None => JNull
  end.

Definition jscalar_to (v : jscalar) : option string :=
  match v with
  | JStr s => Some s
  | JNull => None
  end.

(** [Pattern.to_dict] *)
Definition to_dict (self : Pattern) : jdict :=
  [("pattern", JStr (_pattern_str self));
   ("rule", jscalar_of (rule self));
   ("value", jscalar_of (value self))].

(** [Pattern.dumps] *)
Definition Pattern_dumps (self : Pattern) : string := dumps (to_dict self).

(** The comprehension body of [PatternManager.patterns]:
    [Pattern(pattern['pattern'], pattern['rule'], pattern['value'],
    checker, saver)], on a decoded record.  [Some p]: the constructor
    returns [p].  [None]: no pattern of this model; a member is missing
    (the subscript raises [KeyError]) or [pattern] is [null] (the
    constructor keeps [None] as the string form, which the record
    [Pattern] of this model does not hold). *)
Definition Pattern_of_dict (checker : Checker) (pattern : jdict) : option Pattern :=
  p ← jdict_get "pattern" pattern;
  r ← jdict_get "rule" pattern;
  v ← jdict_get "value" pattern;
  match p with
  | JStr pattern_str => Some (Pattern_init pattern_str (jscalar_to r) (jscalar_to v) checker)
  | JNull => None
  end.

(** One stored record back to a pattern: [json.loads] and the
    constructor. *)
Definition Pattern_loads (checker : Checker) (v : string) : option Pattern :=
  d ← loads v; Pattern_of_dict checker d.

(* ===================================================================== *)
(** * CheckPatternTrie *)
(* ===================================================================== *)

(** [re.sub(r'https?://', '', url, 1)]: the leftmost match is removed.
    At one position the pattern first tries the longer alternative. *)
Fixpoint re_sub_http (url : string) : string :=
  if startswith url "https://" then str_drop 8 url
  else if startswith url "http://" then str_drop 7 url
  else
    match url with
    | EmptyString => EmptyString
    | String c url' => String c (re_sub_http url')
    end.

Definition _remove_http_prefix (url : string) : string :=
  if startswith url "http" then re_sub_http url else url.

(** The normalization in the words of the specification: a leading
    [http://] or [https://] is cut off, and nothing else changes. *)
Definition strip_protocol_prefix (url : string) : string :=
  if startswith url "https://" then str_drop 8 url
  else if startswith url "http://" then str_drop 7 url
  else url.

(** The character trie of the library, seen as the finite map it
    implements: stored keys with their values. *)
Abbreviation CharTrie := (gmap string string).

(** [CheckPatternTrie.__setitem__] *)
Definition trie_setitem (key value : string) (t : CharTrie) : CharTrie :=
  <[_remove_http_prefix key := value]> t.

(** [del t[key]]: the library's own [__delitem__], the key as given. *)
Definition trie_delitem (key : string) (t : CharTrie) : result CharTrie :=
  match t !! key with
  | Some _ => Ret (delete key t)
  | None => Raise (KeyError key)
  end.


(** All prefixes of a string, the shortest first. *)
Fixpoint str_prefixes (s : string) : list string :=
  EmptyString ::
  match s with
  | EmptyString => []
  | String c s' => String c <$> str_prefixes s'
  end.

(** [t.prefixes(key)]: the walk down the trie yields, shortest first,
    every prefix of [key] that has a value. *)
Definition trie_prefixes (t : CharTrie) (key : string) : list (string * string) :=
  omap (λ k, (λ v, (k, v)) <$> t !! k) (str_prefixes key).

(** [t.longest_prefix(key)]: the last step of the walk, or the step
    whose key and value are [None]. *)
Definition longest_prefix (t : CharTrie) (key : string) : option (string * string) :=
  last (trie_prefixes t key).

(** [CheckPatternTrie.closest_pattern] *)
Definition closest_pattern (t : CharTrie) (url : string) : string * string :=
  let url := _remove_http_prefix url in
  match longest_prefix t url with
  | Some (pattern_str, check_rule_json) => (pattern_str, check_rule_json)
  | None => ("public_proxies", dumps [("rule", JNull); ("value", JNull)])
  end.

(* ===================================================================== *)
(** * PatternManager *)
(* ===================================================================== *)

(** The manager's state: the in-memory index [_patterns], the trie [t]
    and the hash [response_check_pattern] of the remote store.  Calls to
    the store are taken to succeed. *)
Record PatternManager : Type := mkManager {
  mgr_checker : Checker;
  _patterns : gmap string Pattern;
  t : CharTrie;
  redis : gmap string string
}.

(** [PatternManager.get_pattern] *)
Definition get_pattern (self : PatternManager) (pattern_str : string) : option Pattern :=
  _patterns self !! pattern_str.

(** [PatternManager.add] *)
Definition add (self : PatternManager) (pattern : string) (rule value : option string)
    : PatternManager :=
  let p := Pattern_init pattern rule value (mgr_checker self) in
  let patterns' := <[pattern := p]> (_patterns self) in
  let t' := trie_setitem pattern (Pattern_dumps p) (t self) in
  let redis' := <[pattern := Pattern_dumps p]> (redis self) in
  mkManager (mgr_checker self) patterns' t' redis'.

(** [PatternManager.update] *)
Definition update (self : PatternManager) (pattern : string) (rule value : option string)
    : PatternManager :=
  add self pattern rule value.

(** [PatternManager.delete]: the state the call leaves behind, and the
    exception it ends with, if any.  What was done before the exception
    stays done. *)
Definition delete_pattern (self : PatternManager) (pattern : string)
    : PatternManager * option exn :=
  match trie_delitem pattern (t self) with
  | Raise e => (self, Some e)
  | Ret t' =>
      let self1 := mkManager (mgr_checker self) (_patterns self) t' (redis self) in
      match _patterns self !! pattern with
      | None => (self1, Some (KeyError pattern))
      | Some _ =>
          (mkManager (mgr_checker self) (delete pattern (_patterns self)) t'
                     (delete pattern (redis self)),
           None)
      end
  end.

(** A manager over an empty store, before the sentinel is added. *)
Definition empty_manager (c : Checker) : PatternManager := mkManager c ∅ ∅ ∅.

(** [PatternManager.patterns()] over a store that holds the hash [d]:
    [Some ps] when every stored record is one of the modelled ones. *)
Definition patterns (c : Checker) (d : gmap string string) : option (list Pattern) :=
  mapM (Pattern_loads c) (map_to_list d).*2.



(* ===================================================================== *)
(** * Concurrent calls of Pattern.counter *)
(* ===================================================================== *)

(** Where a call of [counter] stands: before [async with] has the lock,
    inside the block, past the block's body with the lock still held,
    returned. *)
Inductive pc : Type :=
| Waiting
| Entered
| Leaving
| Finished.

#[global] Instance pc_eq_dec : EqDecision pc.
Proof. solve_decision. Defined.

Record task : Type := mkTask {
  t_now : string;
  t_valid : bool;
  t_pc : pc
}.

Definition at_pc (tk : task) (l : pc) : task := mkTask (t_now tk) (t_valid tk) l.

(** One pattern, its [counter_lock] and the calls in flight. *)
Record sys : Type := mkSys {
  locked : bool;
  pat : Pattern;
  tasks : list task
}.

(** The event loop runs one call at a time up to its next suspension
    point.  [acquire] goes through only on a free lock; the body of the
    block has no suspension point and runs in one piece. *)
Inductive step : sys → sys → Prop :=
| step_acquire s i tk :
    tasks s !! i = Some tk → t_pc tk = Waiting → locked s = false →
    step s (mkSys true (pat s) (<[i := at_pc tk Entered]> (tasks s)))
| step_body s i tk p' :
    tasks s !! i = Some tk → t_pc tk = Entered →
    counter (pat s) (t_now tk) (t_valid tk) = Ret p' →
    step s (mkSys (locked s) p' (<[i := at_pc tk Leaving]> (tasks s)))
| step_release s i tk :
    tasks s !! i = Some tk → t_pc tk = Leaving →
    step s (mkSys false (pat s) (<[i := at_pc tk Finished]> (tasks s))).

Inductive steps : sys → sys → Prop :=
| steps_refl s : steps s s
| steps_cons s1 s2 s3 : step s1 s2 → steps s2 s3 → steps s1 s3.

(** [n] calls [counter(now, valid)] gathered on the pattern [p]. *)
Definition gather (p : Pattern) (now : string) (valid : bool) (n : nat) : sys :=
  mkSys false p (replicate n (mkTask now valid Waiting)).

Definition all_finished (s : sys) : Prop :=
  Forall (λ tk, t_pc tk = Finished) (tasks s).

(** A call that has run the body of the block. *)
Definition past_body (tk : task) : nat :=
  match t_pc tk with
  | Leaving | Finished => 1
  | Waiting | Entered => 0
  end.

(** A call that is inside the block. *)
Definition in_block (tk : task) : nat :=
  match t_pc tk with
  | Entered | Leaving => 1
  | Waiting | Finished => 0
  end.

(** What holds of every state [n] gathered calls for the label [now]
    on the map [valid] of [p0] can reach: every call is for that label
    and map; the count of the label is its first count plus the number
    of calls past the body; the map has at most ten labels; the lock is
    held exactly when one call is inside the block, and no second one
    is. *)
Definition gather_inv (p0 : Pattern) (now : string) (valid : bool) (s : sys) : Prop :=
  Forall (λ tk, t_now tk = now ∧ t_valid tk = valid) (tasks s) ∧
  (length (counter_of (pat s) valid) ≤ 10)%nat ∧
  default 0 (od_get now (counter_of (pat s) valid))
  = default 0 (od_get now (counter_of p0 valid))
    + Z.of_nat (sum_list (past_body <$> tasks s)) ∧
  sum_list (in_block <$> tasks s) = (if locked s then 1 else 0)%nat.

(* ===================================================================== *)
(** * Further notions used by the properties below *)
(* ===================================================================== *)

(** A string [str.strip()] leaves nothing of: every character is a
    space (the empty string too). *)
Fixpoint all_space (s : string) : bool :=
  match s with
  | EmptyString => true
  | String c s' => isspace c && all_space s'
  end.

(* ===================================================================== *)
(** * PatternManager.status *)
(* ===================================================================== *)

(** [x.index(t)]: the first position of [t], or none ([ValueError]). *)
Fixpoint list_index (t : string) (x : list string) : option nat :=
  match x with
  | [] => None
  | a :: x' => if decide (a = t) then Some O else S <$> list_index t x'
  end.

(** One entry of the report: [{'pattern': str(pattern), 'serial': y}]. *)
Record status_item (float : Type) : Type := mkItem {
  item_pattern : string;
  item_serial : list (number float)
}.
Arguments mkItem {float} _ _.
Arguments item_pattern {float} _.
Arguments item_serial {float} _.

Section Status.

Variable float : Type.
Variable truediv : Z → Z → float.
Variable mul_int : float → Z → float.

(** The loop [for i, t in enumerate(times)] from position [i] on: a
    label that is not in [x] is passed over; [values[i]] and
    [y[ind] = ...] raise [IndexError] out of range, which ends the
    call ([None]). *)
Fixpoint status_serial (x times : list string) (values : list (number float))
    (i : nat) (y : list (number float)) : option (list (number float)) :=
  match times with
  | [] => Some y
  | t :: times' =>
      match list_index t x with
      | None => status_serial x times' values (S i) y
      | Some ind =>
          match values !! i with
          | None => None
          | Some v =>
              if decide (ind < length y)%nat
              then status_serial x times' values (S i) (<[ind := v]> y)
              else None
          end
      end
  end.

(** The body of the loop over the patterns; [None] when it raises. *)
Definition status_of_pattern (x : list string) (pattern : Pattern)
    : option (status_item float) :=
  match success_rate float truediv mul_int pattern with
  | Raise _ => None
  | Ret (times, values) =>
      y ← status_serial x times values O (replicate 10 (NInt 0));
      Some (mkItem (Pattern_str pattern) y)
  end.

(** [PatternManager.status()], given the labels [x] of the last ten
    minutes, oldest first, which the code takes from the clock.  The
    patterns come in the order of the index. *)
Definition manager_status (x : list string) (self : PatternManager)
    : option (list string * list (status_item float)) :=
  items ← mapM (status_of_pattern x) (map_to_list (_patterns self)).*2;
  Some (x, items).

End Status.

(* ===================================================================== *)
(** * Strings *)
(* ===================================================================== *)

Lemma append_String c w r : String c w +:+ r = String c (w +:+ r).
Proof. reflexivity. Qed.

Lemma append_empty r : EmptyString +:+ r = r.
Proof. reflexivity. Qed.

Lemma startswith_spec t w : startswith t w = true ↔ ∃ r, t = w +:+ r.
Proof.
  revert t. induction w as [|a w IH]; intros t; simpl.
  - split; [intros _; by exists t | done].
  - destruct t as [|b t]; simpl.
    + split; [done | intros [r Hr]; discriminate].
    + setoid_rewrite append_String.
      destruct (decide (a = b)) as [->|Hne].
      * rewrite IH. split; intros [r Hr]; exists r; congruence.
      * split; [done | intros [r Hr]; congruence].
Qed.

Lemma startswith_app w r : startswith (w +:+ r) w = true.
Proof. apply startswith_spec. by exists r. Qed.

(** [w in t] holds exactly when [t] is [a + w + b] for some [a], [b]. *)
Lemma str_in_spec w t : str_in w t = true ↔ ∃ a b, t = a +:+ w +:+ b.
Proof.
  induction t as [|c t IH]; cbn [str_in].
  - rewrite orb_false_r, startswith_spec. split.
    + intros [r Hr]. by exists EmptyString, r.
    + intros (a & b & H). destruct a; [by exists b | discriminate].
  - rewrite orb_true_iff, startswith_spec, IH. split.
    + intros [[r Hr] | (a & b & H)].
      * by exists EmptyString, r.
      * exists (String c a), b. rewrite append_String. by rewrite H.
    + intros (a & b & H). destruct a as [|c' a].
      * left. by exists b.
      * right. exists a, b. rewrite append_String in H. congruence.
Qed.

Lemma str_drop_app w r : str_drop (String.length w) (w +:+ r) = r.
Proof. induction w; simpl; auto. Qed.

(* ===================================================================== *)
(** * Checker: status code, blacklist, whitelist *)
(* ===================================================================== *)

Lemma _status_code_checker_spec c :
  _status_code_checker c = true ↔ ∃ n, c = Some n ∧ (n = 404 ∨ n < 400).
Proof.
  destruct c as [n|]; simpl.
  - rewrite orb_true_iff, Z.eqb_eq, Z.ltb_lt. split.
    + intros H. exists n. auto.
    + intros (m & [= <-] & H). done.
  - split; [done | intros (n & H & _); discriminate].
Qed.

Lemma blacklist_hit_Some words text word :
  blacklist_hit words text = Some word → word ∈ words ∧ str_in word text = true.
Proof.
  induction words as [|w ws IH]; simpl; [done|].
  destruct (str_in w text) eqn:E.
  - intros [= <-]. split; [left | done].
  - intros H. destruct (IH H). split; [by right | done].
Qed.

Lemma blacklist_hit_None words text :
  blacklist_hit words text = None ↔ ∀ w, w ∈ words → str_in w text = false.
Proof.
  induction words as [|w ws IH]; simpl.
  - split; [intros _ w' H; inversion H | done].
  - destruct (str_in w text) eqn:E.
    + split; [done | intros H; specialize (H w (list_elem_of_here _ _)); congruence].
    + rewrite IH. split.
      * intros H w' Hin. inversion Hin; subst; auto.
      * intros H w' Hin. apply H. by right.
Qed.

Lemma blacklist_hit_found words text word :
  word ∈ words → str_in word text = true → ∃ w, blacklist_hit words text = Some w.
Proof.
  intros Hin Hs. destruct (blacklist_hit words text) as [w|] eqn:E; [eauto|].
  rewrite blacklist_hit_None in E. rewrite (E _ Hin) in Hs. discriminate.
Qed.

(** C4. A status code is accepted exactly when it is 404 or below 400;
    an absent status code is rejected.  [Checker.check] follows this
    test in both directions.  A rejected status makes it return the
    diagnostic "status_code check failed, get <code>" whatever the
    blacklist, the body, the rule and the value are.  An accepted
    status is let through: the result is that of the later checks and
    the same for every accepted code; it is [None] when no blacklisted
    word occurs and there is no rule; and it is the status diagnostic
    only if the document library produced that very text as the trace
    of a fault in a structured check.  So with no rule the status
    diagnostic is returned exactly for the rejected codes.  For status
    500 [Pattern.check] returns the one-element list with
    "status_code check failed, get 500", for an accepted status, an
    empty blacklist and no rule the empty list. *)
Theorem status_code_check :
  (∀ c : Z, _status_code_checker (Some c) = true ↔ c = 404 ∨ c < 400) ∧
  _status_code_checker None = false ∧
  (∀ xpath_first self c text rule value,
     _status_code_checker c = false →
     check xpath_first self c text rule value
     = Ret (Some ("status_code check failed, get " +:+ format_opt_int c))) ∧
  (∀ xpath_first self c c' text rule value,
     _status_code_checker c = true → _status_code_checker c' = true →
     check xpath_first self c text rule value = check xpath_first self c' text rule value) ∧
  (∀ xpath_first self c text value,
     _status_code_checker c = true →
     (∀ word, word ∈ global_blacklist self → str_in word text = false) →
     check xpath_first self c text None value = Ret None) ∧
  (∀ xpath_first self c text rule value,
     _status_code_checker c = true →
     check xpath_first self c text rule value
     = Ret (Some ("status_code check failed, get " +:+ format_opt_int c)) →
     ∃ r v, rule = Some r ∧ value = Some v ∧
            xpath_first text r
            = XFault ("status_code check failed, get " +:+ format_opt_int c)) ∧
  (∀ xpath_first self c text value,
     check xpath_first self c text None value
     = Ret (Some ("status_code check failed, get " +:+ format_opt_int c))
     ↔ _status_code_checker c = false) ∧
  (∀ xpath_first self text,
     Pattern_check xpath_first self (mkResponse (Some 500) text)
     = Ret ["status_code check failed, get 500"]) ∧
  (∀ xpath_first pattern_str sc fc c text,
     _status_code_checker c = true →
     Pattern_check xpath_first (mkPattern pattern_str (mkChecker []) None None sc fc)
                   (mkResponse c text)
     = Ret []).
Proof.
  assert (∀ xpath_first self c text rule value,
     _status_code_checker c = true →
     check xpath_first self c text rule value
     = Ret (Some ("status_code check failed, get " +:+ format_opt_int c)) →
     ∃ r v, rule = Some r ∧ value = Some v ∧
            xpath_first text r
            = XFault ("status_code check failed, get " +:+ format_opt_int c)) as Hlater.
  { intros xp self c text rule value H. unfold check. rewrite H. cbn [negb].
    destruct (blacklist_hit (global_blacklist self) text) as [w|].
    { intros E. discriminate E. }
    destruct (bool_decide (rule = Some "whitelist")).
    { destruct value as [v|]; simpl; [|discriminate].
      destruct (negb (str_in v text)); intros E; discriminate E. }
    destruct rule as [r|]; [|discriminate]. destruct value as [v|]; [|discriminate].
    destruct (truthy (Some r) && truthy (Some v)
              && negb (String.length (strip r) =? 0)%nat
              && negb (String.length (strip v) =? 0)%nat); [|discriminate].
    unfold _xpath_checker. destruct (xp text r) as [xv| |trace] eqn:Ex.
    - destruct (xpath_value_eq xv v); intros E; discriminate E.
    - intros E. discriminate E.
    - intros [= E]. exists r, v. by rewrite <- E. }
  split_and!.
  - intros c. rewrite _status_code_checker_spec. split.
    + intros (n & [= <-] & H). done.
    + intros H. eauto.
  - done.
  - intros xp self c text rule value H. unfold check. by rewrite H.
  - intros xp self c c' text rule value H H'. unfold check. by rewrite H, H'.
  - intros xp self c text value H Hbl. unfold check. rewrite H. cbn [negb].
    apply blacklist_hit_None in Hbl. by rewrite Hbl.
  - exact Hlater.
  - intros xp self c text value. split.
    + intros Hc. destruct (_status_code_checker c) eqn:E; [|done].
      destruct (Hlater _ _ _ _ _ _ E Hc) as (r & v & Hr & _). discriminate Hr.
    + intros H. unfold check. by rewrite H.
  - intros xp self text. reflexivity.
  - intros xp pattern_str sc fc c text H. unfold Pattern_check, check. simpl.
    by rewrite H.
Qed.

(** C5. When the status code is accepted and the body contains a word
    of the global blacklist, [Checker.check] returns the blacklist
    diagnostic, naming the first word of the list that occurs in the
    body, whatever the rule and the value are (a whitelist rule, a
    structured assertion, none, also a whitelist rule without a value):
    the blacklist is looked at before the rule. *)
Theorem blacklist_checked_first xpath_first self c text rule value word a b :
  _status_code_checker c = true →
  word ∈ global_blacklist self →
  text = a +:+ word +:+ b →
  ∃ w, w ∈ global_blacklist self ∧ str_in w text = true ∧
       blacklist_hit (global_blacklist self) text = Some w ∧
       check xpath_first self c text rule value
       = Ret (Some ("global blacklist check failed, get " +:+ w)).
Proof.
  intros Hc Hin Htext.
  assert (str_in word text = true) as Hs by (apply str_in_spec; eauto).
  destruct (blacklist_hit_found _ _ _ Hin Hs) as [w Hw].
  exists w. destruct (blacklist_hit_Some _ _ _ Hw) as [H1 H2].
  repeat split; try done.
  unfold check. by rewrite Hc, Hw.
Qed.

Lemma blacklist_checked_first_witness :
  ∃ w, w ∈ global_blacklist (mkChecker ["denied"; "forbidden"]) ∧
       str_in w "access forbidden here" = true ∧
       blacklist_hit (global_blacklist (mkChecker ["denied"; "forbidden"]))
                     "access forbidden here" = Some w ∧
       check (λ _ _, XIndexError) (mkChecker ["denied"; "forbidden"]) (Some 200)
             "access forbidden here" (Some "whitelist") None
       = Ret (Some ("global blacklist check failed, get " +:+ w)).
Proof.
  apply (blacklist_checked_first (λ _ _, XIndexError)
           (mkChecker ["denied"; "forbidden"]) (Some 200) "access forbidden here"
           (Some "whitelist") None "forbidden" "access " " here").
  - reflexivity.
  - simpl. right. left.
  - reflexivity.
Defined.

(** C10 as stated fails: with a whitelist rule and no value, a call with
    status 500 returns the status diagnostic and raises nothing. *)
Lemma whitelist_null_value_not_every_call_raises :
  ¬ (∀ (self : Checker) (c : option Z) (text : string),
       ∃ e, check (λ _ _, XIndexError) self c text (Some "whitelist") None = Raise e).
Proof.
  intros H. destruct (H (mkChecker []) (Some 500) "body") as [e He].
  discriminate He.
Qed.

(** C10, amended. With a whitelist rule and no value, [Checker.check]
    raises (the membership test has no string on its left) on every
    call whose status code is accepted and whose body contains no
    blacklisted word, and so does [Pattern.check]; on a rejected status
    code or a blacklisted body it returns that diagnostic instead. *)
Theorem whitelist_null_value_raises xpath_first self c text :
  _status_code_checker c = true →
  (∀ w, w ∈ global_blacklist self → str_in w text = false) →
  check xpath_first self c text (Some "whitelist") None = Raise TypeError ∧
  (∀ p, checker p = self → rule p = Some "whitelist" → value p = None →
        Pattern_check xpath_first p (mkResponse c text) = Raise TypeError) ∧
  (∀ c' text', _status_code_checker c' = false ∨
               blacklist_hit (global_blacklist self) text' ≠ None →
        ∃ d, check xpath_first self c' text' (Some "whitelist") None = Ret (Some d)).
Proof.
  intros Hc Hbl. apply blacklist_hit_None in Hbl.
  assert (check xpath_first self c text (Some "whitelist") None = Raise TypeError) as E.
  { unfold check. by rewrite Hc, Hbl. }
  split; [done|split].
  - intros p <- Hr Hv. unfold Pattern_check. simpl. by rewrite Hr, Hv, E.
  - intros c' text' [H|H]; unfold check.
    + rewrite H. simpl. eauto.
    + destruct (_status_code_checker c'); simpl; [|eauto].
      destruct (blacklist_hit (global_blacklist self) text') eqn:E'; [eauto | done].
Qed.

Lemma whitelist_null_value_raises_witness :
  check (λ _ _, XIndexError) (mkChecker ["denied"]) (Some 200) "status: OK"
        (Some "whitelist") None = Raise TypeError.
Proof.
  apply (whitelist_null_value_raises (λ _ _, XIndexError) (mkChecker ["denied"])
           (Some 200) "status: OK").
  - reflexivity.
  - intros w Hw. apply list_elem_of_singleton in Hw. subst. reflexivity.
Defined.

(* ===================================================================== *)
(** * OrderedDict and Pattern.counter *)
(* ===================================================================== *)

Lemma od_get_None k c : od_get k c = None ↔ k ∉ od_keys c.
Proof.
  induction c as [|[k' v] c IH]; simpl.
  - split; [intros _ H; inversion H | done].
  - destruct (decide (k' = k)) as [->|Hne].
    + split; [done | intros H; destruct H; left].
    + rewrite IH, not_elem_of_cons. intuition congruence.
Qed.

Lemma od_mem_true k c : od_mem k c = true ↔ k ∈ od_keys c.
Proof.
  unfold od_mem. destruct (od_get k c) eqn:E.
  - split; [intros _ | done].
    destruct (decide (k ∈ od_keys c)) as [|Hn]; [done|].
    apply od_get_None in Hn. congruence.
  - apply od_get_None in E. split; [done | intros; contradiction].
Qed.

Lemma od_keys_replace k v c : od_keys (od_replace k v c) = od_keys c.
Proof.
  induction c as [|[k' v'] c IH]; simpl; [done|].
  destruct (decide (k' = k)); simpl; [done | by rewrite IH].
Qed.

Lemma od_get_replace k v c : k ∈ od_keys c → od_get k (od_replace k v c) = Some v.
Proof.
  induction c as [|[k' v'] c IH]; simpl; [intros H; inversion H|].
  intros H. destruct (decide (k' = k)) as [->|Hne]; simpl.
  - by rewrite decide_True.
  - rewrite decide_False by done. apply IH.
    apply elem_of_cons in H as [->|H]; [done | done].
Qed.

Lemma od_get_app_fresh k v c : k ∉ od_keys c → od_get k (c ++ [(k, v)]) = Some v.
Proof.
  induction c as [|[k' v'] c IH]; simpl; intros H.
  - by rewrite decide_True.
  - apply not_elem_of_cons in H as [H1 H2].
    rewrite decide_False by done. by apply IH.
Qed.

Lemma od_popitems_drop n c : (n ≤ length c)%nat → od_popitems n c = Ret (drop n c).
Proof.
  revert c. induction n as [|n IH]; intros c Hn; simpl; [done|].
  destruct c as [|x c]; simpl in *; [lia|]. apply IH. lia.
Qed.

(** The call never raises: the loop pops no more entries than there are. *)
Lemma counter_body_total now c : counter_body now c = Ret (counter_next now c).
Proof.
  unfold counter_body, counter_next.
  replace (match od_get now c with
           | Some n => od_setitem now (n + 1) c
           | None => od_setitem now 1 c
           end) with (od_setitem now (default 0 (od_get now c) + 1) c)
    by (by destruct (od_get now c)).
  set (c1 := od_setitem _ _ _).
  destruct (Z.gtb_spec (Z.of_nat (length c1) - 10) 0) as [H|H].
  - rewrite od_popitems_drop by lia. f_equal. f_equal. lia.
  - replace (length c1 - 10)%nat with 0%nat by lia. done.
Qed.

Lemma od_keys_setitem k v c :
  od_keys (od_setitem k v c) = if decide (k ∈ od_keys c) then od_keys c else od_keys c ++ [k].
Proof.
  unfold od_setitem. destruct (od_mem k c) eqn:E.
  - apply od_mem_true in E. rewrite decide_True by done. apply od_keys_replace.
  - rewrite decide_False.
    + unfold od_keys. by rewrite fmap_app.
    + intros H. apply od_mem_true in H. congruence.
Qed.

Lemma od_keys_counter_next now c : od_keys (counter_next now c) = keys_next now (od_keys c).
Proof.
  unfold counter_next, keys_next, od_keys at 1.
  rewrite fmap_drop. fold (od_keys (od_setitem now (default 0 (od_get now c) + 1) c)).
  rewrite <- (length_fmap fst). fold (od_keys (od_setitem now (default 0 (od_get now c) + 1) c)).
  by rewrite od_keys_setitem.
Qed.

Lemma counter_of_with_same p v c : counter_of (with_counter p v c) v = c.
Proof. by destruct v. Qed.

Lemma counter_of_with_other p v c : counter_of (with_counter p v c) (negb v) = counter_of p (negb v).
Proof. by destruct v. Qed.

Lemma counter_total p now valid :
  counter p now valid = Ret (with_counter p valid (counter_next now (counter_of p valid))).
Proof. unfold counter. by rewrite counter_body_total. Qed.

(** A run of calls never raises, and each map sees only its own calls. *)
Lemma counter_calls_total p calls :
  ∃ p', counter_calls p calls = Ret p' ∧
        ∀ v, counter_of p' v
             = foldl (λ c now, counter_next now c) (counter_of p v) (calls_for v calls).
Proof.
  revert p. induction calls as [|[now valid] calls IH]; intros p; simpl.
  - by exists p.
  - rewrite counter_total. simpl.
    destruct (IH (with_counter p valid (counter_next now (counter_of p valid))))
      as (p' & Hp' & Hc).
    exists p'. split; [done|]. intros v. rewrite Hc. unfold calls_for.
    rewrite filter_cons. simpl. destruct (decide (valid = v)) as [->|Hne].
    + simpl. by rewrite counter_of_with_same.
    + replace v with (negb valid) by (destruct v, valid; done).
      by rewrite counter_of_with_other.
Qed.

Lemma od_keys_foldl c labels :
  od_keys (foldl (λ c now, counter_next now c) c labels)
  = foldl (λ ks now, keys_next now ks) (od_keys c) labels.
Proof.
  revert c. induction labels as [|l labels IH]; intros c; simpl; [done|].
  by rewrite IH, od_keys_counter_next.
Qed.

Lemma keys_next_known now ks :
  now ∈ ks → (length ks ≤ 10)%nat → keys_next now ks = ks.
Proof.
  intros Hin Hlen. unfold keys_next. rewrite decide_True by done.
  by replace (length ks - 10)%nat with 0%nat by lia.
Qed.

Lemma keys_next_room now ks :
  now ∉ ks → (length ks < 10)%nat → keys_next now ks = ks ++ [now].
Proof.
  intros Hin Hlen. unfold keys_next. rewrite decide_False by done.
  rewrite length_app. simpl.
  by replace (length ks + 1 - 10)%nat with 0%nat by lia.
Qed.

(** First in, first out: a new label on a full map pushes out the head,
    the label that came in first. *)
Lemma keys_next_full now ks :
  now ∉ ks → length ks = 10%nat → keys_next now ks = drop 1 ks ++ [now].
Proof.
  intros Hin Hlen. unfold keys_next. rewrite decide_False by done.
  rewrite length_app. simpl. replace (length ks + 1 - 10)%nat with 1%nat by lia.
  destruct ks; [done|]. reflexivity.
Qed.

(** Labels that are all different: the map holds the last ten of them,
    in the order they came in. *)
Lemma keys_foldl_NoDup labels :
  NoDup labels →
  foldl (λ ks now, keys_next now ks) [] labels = drop (length labels - 10) labels.
Proof.
  induction labels as [|l labels IH] using rev_ind; intros Hnd; [done|].
  apply NoDup_app in Hnd as (Hnd & Hfresh & _).
  rewrite foldl_app. simpl. rewrite IH by done.
  assert (l ∉ drop (length labels - 10) labels) as Hl.
  { intros H. apply (Hfresh l); [|left]. by eapply subseteq_drop. }
  rewrite length_app. simpl.
  destruct (decide (length labels < 10)%nat) as [Hlt|Hge].
  - rewrite keys_next_room; [|done|rewrite length_drop; lia].
    replace (length labels - 10)%nat with 0%nat by lia.
    by replace (length labels + 1 - 10)%nat with 0%nat by lia.
  - rewrite keys_next_full; [|done|rewrite length_drop; lia].
    rewrite drop_drop, drop_app_le by lia.
    do 2 f_equal. lia.
Qed.

(** Any run of labels, repeats allowed: the map never holds a label
    twice nor more than ten, holds only labels it was given, and as
    long as it has fewer than ten it holds them all. *)
Lemma keys_foldl_inv labels :
  let ks := foldl (λ ks now, keys_next now ks) [] labels in
  NoDup ks ∧ (length ks ≤ 10)%nat ∧ (∀ x, x ∈ ks → x ∈ labels) ∧
  (length ks = 10%nat ∨ ∀ x, x ∈ labels → x ∈ ks).
Proof.
  induction labels as [|l labels IH] using rev_ind; simpl.
  - split; [constructor|]. split; [lia|]. split; [done|]. by right.
  - rewrite foldl_app. simpl. simpl in IH.
    set (ks := foldl (λ ks now, keys_next now ks) [] labels) in *.
    destruct IH as (Hnd & Hlen & Hsub & Hall).
    destruct (decide (l ∈ ks)) as [Hin|Hnin].
    + rewrite keys_next_known by done. repeat split; try done.
      * intros x Hx. apply elem_of_app. left. auto.
      * destruct Hall as [H|H]; [by left|right].
        intros x Hx. apply elem_of_app in Hx as [Hx|Hx]; [auto|].
        apply list_elem_of_singleton in Hx. by subst.
    + destruct (decide (length ks < 10)%nat) as [Hlt|Hge].
      * rewrite keys_next_room by done.
        destruct Hall as [H|H]; [lia|].
        split; [|split; [|split]].
        -- apply NoDup_app. repeat split; [done| |apply NoDup_singleton].
           intros x Hx Hx'. apply list_elem_of_singleton in Hx'. by subst.
        -- rewrite length_app. simpl. lia.
        -- intros x Hx. apply elem_of_app in Hx as [Hx|Hx]; apply elem_of_app; auto.
        -- right. intros x Hx. apply elem_of_app in Hx as [Hx|Hx]; apply elem_of_app; auto.
      * rewrite keys_next_full by (done || lia).
        pose proof (subseteq_drop 1 ks) as Hd.
        split; [|split; [|split]].
        -- apply NoDup_app. repeat split; [|  |apply NoDup_singleton].
           ++ exact (sublist_NoDup _ _ Hnd (sublist_drop ks 1)).
           ++ intros x Hx Hx'. apply list_elem_of_singleton in Hx'. subst. auto.
        -- rewrite length_app, length_drop. simpl. lia.
        -- intros x Hx. apply elem_of_app in Hx as [Hx|Hx]; apply elem_of_app; auto.
        -- left. rewrite length_app, length_drop. simpl. lia.
Qed.

Lemma keys_foldl_length labels :
  (11 ≤ length (remove_dups labels))%nat →
  length (foldl (λ ks now, keys_next now ks) [] labels) = 10%nat.
Proof.
  intros H11. destruct (keys_foldl_inv labels) as (Hnd & Hlen & Hsub & [H|Hall]); [done|].
  exfalso.
  assert (remove_dups labels ⊆+ foldl (λ ks now, keys_next now ks) [] labels) as Hs.
  { apply NoDup_submseteq; [apply NoDup_remove_dups|].
    intros x Hx. apply Hall. by apply elem_of_remove_dups. }
  apply submseteq_length in Hs. lia.
Qed.

Lemma keys_foldl_fifo labels :
  foldl (λ ks now, keys_next now ks) [] labels = foldl fifo_retain [] labels.
Proof.
  induction labels as [|l labels IH] using rev_ind; [done|].
  rewrite !foldl_app. simpl. rewrite <- IH.
  destruct (keys_foldl_inv labels) as (_ & Hlen & _). simpl in Hlen.
  set (ks := foldl (λ ks now, keys_next now ks) [] labels) in *.
  unfold fifo_retain. destruct (decide (l ∈ ks)) as [Hin|Hnin].
  - by apply keys_next_known.
  - destruct (decide (length ks < 10)%nat) as [Hlt|Hge].
    + by apply keys_next_room.
    + apply keys_next_full; [done|lia].
Qed.

(** C1. On a pattern whose map for [valid] is still empty, after any run
    of [counter] calls (both outcomes mixed, labels repeated at will)
    that gives this map 11 or more distinct labels, the run has not
    raised and the map holds exactly 10 labels.  Which ones, and in
    which order, is what the first-in-first-out rule [fifo_retain]
    leaves when it is fed the labels given to the map, one by one: a
    repeated label that is still held does not move and is not
    refreshed, so eviction goes by the time a label came in, not by the
    time it was last counted.  Every label the rule has dropped is gone
    from the map.  When the labels given to the map are all different,
    the map holds the last 10 that came in, in that order, and every
    earlier label is gone. *)
Theorem counter_keeps_last_ten p valid calls :
  counter_of p valid = [] →
  (11 ≤ length (remove_dups (calls_for valid calls)))%nat →
  ∃ p', counter_calls p calls = Ret p' ∧
        length (od_keys (counter_of p' valid)) = 10%nat ∧
        od_keys (counter_of p' valid) = foldl fifo_retain [] (calls_for valid calls) ∧
        (∀ l, l ∉ foldl fifo_retain [] (calls_for valid calls) →
              od_get l (counter_of p' valid) = None) ∧
        (NoDup (calls_for valid calls) →
         od_keys (counter_of p' valid)
         = drop (length (calls_for valid calls) - 10) (calls_for valid calls) ∧
         ∀ l, l ∈ take (length (calls_for valid calls) - 10) (calls_for valid calls) →
              od_get l (counter_of p' valid) = None).
Proof.
  intros Hempty H11.
  destruct (counter_calls_total p calls) as (p' & Hp' & Hc).
  exists p'. split; [done|].
  specialize (Hc valid). rewrite Hempty in Hc.
  assert (od_keys (counter_of p' valid)
          = foldl (λ ks now, keys_next now ks) [] (calls_for valid calls)) as Hk.
  { rewrite Hc. by rewrite od_keys_foldl. }
  split_and!.
  - rewrite Hk. by apply keys_foldl_length.
  - by rewrite Hk, keys_foldl_fifo.
  - intros l Hl. apply od_get_None. by rewrite Hk, keys_foldl_fifo.
  - intros Hnd. rewrite Hk, keys_foldl_NoDup by done. split; [done|].
    intros l Hl. apply od_get_None. rewrite Hk, keys_foldl_NoDup by done.
    intros Hl'. set (ls := calls_for valid calls) in *.
    rewrite <- (take_drop (length ls - 10) ls) in Hnd.
    apply NoDup_app in Hnd as (_ & Hdisj & _). by apply (Hdisj l).
Qed.

Lemma counter_keeps_last_ten_witness :
  let p := Pattern_init "a.com" None None (mkChecker []) in
  let calls := [("12:00", true); ("12:01", true); ("12:01", false); ("12:00", true);
                ("12:02", true); ("12:03", true); ("12:04", true); ("12:05", true);
                ("12:06", true); ("12:07", true); ("12:08", true); ("12:09", true);
                ("12:10", true)] in
  ∃ p', counter_calls p calls = Ret p' ∧
        od_keys (counter_of p' true)
        = ["12:01"; "12:02"; "12:03"; "12:04"; "12:05"; "12:06"; "12:07"; "12:08";
           "12:09"; "12:10"] ∧
        od_get "12:00" (counter_of p' true) = None.
Proof.
  intros p calls.
  destruct (counter_keeps_last_ten p true calls) as (p' & Hrun & _ & Hkeys & Hgone & _).
  - reflexivity.
  - vm_compute. lia.
  - exists p'. split; [exact Hrun|]. split.
    + rewrite Hkeys. vm_compute. reflexivity.
    + apply Hgone. refine (bool_decide_unpack _ _). vm_compute. exact I.
Defined.

(* ===================================================================== *)
(** * Pattern.success_rate *)
(* ===================================================================== *)

Lemma od_get_positive k c n : counts_positive c → od_get k c = Some n → 0 < n.
Proof.
  induction c as [|[k' v] c IH]; simpl; [done|].
  intros Hc. apply Forall_cons in Hc as [Hv Hc]. simpl in Hv.
  destruct (decide (k' = k)); [intros [= <-]; done | auto].
Qed.

Lemma od_replace_positive k v c : 0 < v → counts_positive c → counts_positive (od_replace k v c).
Proof.
  intros Hv. induction c as [|[k' v'] c IH]; simpl; [done|].
  intros Hc. apply Forall_cons in Hc as [Hv' Hc]. simpl in Hv'.
  destruct (decide (k' = k)); constructor; simpl; auto; by apply IH.
Qed.

Lemma counter_next_positive now c : counts_positive c → counts_positive (counter_next now c).
Proof.
  intros Hc. unfold counter_next. apply Forall_drop. unfold od_setitem.
  assert (0 < default 0 (od_get now c) + 1) as Hpos.
  { destruct (od_get now c) as [n|] eqn:E; simpl; [|lia].
    pose proof (od_get_positive _ _ _ Hc E). lia. }
  destruct (od_mem now c).
  - by apply od_replace_positive.
  - apply Forall_app. split; [done|]. by apply Forall_singleton.
Qed.

Lemma foldl_counter_next_positive labels c :
  counts_positive c → counts_positive (foldl (λ c now, counter_next now c) c labels).
Proof.
  revert c. induction labels as [|l labels IH]; intros c Hc; simpl; [done|].
  apply IH. by apply counter_next_positive.
Qed.

(** Both maps of a reachable pattern hold each label once and only
    counts above zero. *)
Lemma reachable_counter_wf p v :
  reachable p → NoDup (od_keys (counter_of p v)) ∧ counts_positive (counter_of p v).
Proof.
  intros (s & r & val & ch & calls & Hrun).
  destruct (counter_calls_total (Pattern_init s r val ch) calls) as (p' & Hp' & Hc).
  rewrite Hrun in Hp'. injection Hp' as <-.
  specialize (Hc v). replace (counter_of (Pattern_init s r val ch) v) with ([] : OrderedDict) in Hc
    by (by destruct v).
  rewrite Hc. split.
  - rewrite od_keys_foldl. apply (keys_foldl_inv (calls_for v calls)).
  - apply foldl_counter_next_positive. constructor.
Qed.

Lemma od_get_lookup c i t s :
  NoDup (od_keys c) → c !! i = Some (t, s) → od_get t c = Some s.
Proof.
  revert i. induction c as [|[k v] c IH]; intros i Hnd Hi; [done|].
  simpl in Hnd. apply NoDup_cons in Hnd as [Hk Hnd].
  destruct i as [|i]; simpl in *.
  - injection Hi as -> ->. by rewrite decide_True.
  - destruct (decide (k = t)) as [->|Hne]; [|eauto].
    destruct Hk. apply (list_elem_of_lookup_2 _ i).
    unfold od_keys. by rewrite list_lookup_fmap, Hi.
Qed.

Section SuccessRateFacts.

Context {float : Type}.
Variable truediv : Z → Z → float.
Variable mul_int : float → Z → float.

Lemma rate_at_Ret p t s :
  counts_positive (fail_counter p) → 0 < s →
  od_get t (success_counter p) = Some s →
  rate_at float truediv mul_int p t = Ret (rate_entry truediv mul_int (fail_counter p) t s).
Proof.
  intros Hf Hs Ht. unfold rate_at, rate_entry, od_mem, od_getitem, int_truediv.
  rewrite Ht. destruct (od_get t (fail_counter p)) as [f|] eqn:E; [|done].
  simpl. pose proof (od_get_positive _ _ _ Hf E).
  destruct (Z.eqb_spec (f + s) 0); [lia | done].
Qed.

Lemma success_rate_loop_Ret p ents x y :
  counts_positive (fail_counter p) →
  Forall (λ kv, 0 < kv.2 ∧ od_get kv.1 (success_counter p) = Some kv.2) ents →
  success_rate_loop float truediv mul_int p (od_keys ents) x y
  = Ret (x ++ od_keys ents, y ++ ((λ kv, rate_entry truediv mul_int (fail_counter p) kv.1 kv.2) <$> ents)).
Proof.
  intros Hf. revert x y. induction ents as [|[t s] ents IH]; intros x y Hents; simpl.
  - by rewrite !app_nil_r.
  - apply Forall_cons in Hents as [[Hs Ht] Hents]. simpl in *.
    rewrite (rate_at_Ret p t s) by done. simpl.
    rewrite IH by done. by rewrite <- !app_assoc.
Qed.

End SuccessRateFacts.

(** C6, as the code has it.  For a reachable pattern with counts below
    [2 ^ 52], [success_rate] returns, without raising, the labels of the
    success map in insertion order and, at the same positions, for a
    label with success count [s]: the binary64 float
    [(s / (f + s)) * 100], the quotient rounded first and then the
    product, when the fail map has the label with count [f], and the
    integer 100 when it has not.  A label that only the fail map has is
    not in the series.  Without rounding the expression is
    [100 * s / (s + f)]. *)
Theorem success_rate_series (p : Pattern) :
  reachable p →
  counts_below (2 ^ 52) (success_counter p) →
  counts_below (2 ^ 52) (fail_counter p) →
  ∃ labels values,
    success_rate PrimFloat.float py_truediv py_mul_int p = Ret (labels, values) ∧
    labels = od_keys (success_counter p) ∧
    length values = length labels ∧
    (∀ i t s, success_counter p !! i = Some (t, s) →
       labels !! i = Some t ∧
       values !! i
       = Some (match od_get t (fail_counter p) with
               | Some f =>
                   NFloat (PrimFloat.mul (PrimFloat.div (py_float s) (py_float (f + s)))
                                         (py_float 100))
               | None => NInt 100
               end)) ∧
    (∀ t, od_get t (success_counter p) = None → t ∉ labels) ∧
    (∀ s f, 0 < s → 0 < f →
       Qeq (exact_mul_int (exact_truediv s (f + s)) 100)
           (Qdiv (inject_Z (100 * s)) (inject_Z (s + f)))).
Proof.
  intros Hr _ _.
  destruct (reachable_counter_wf p true Hr) as [Hnd Hpos].
  destruct (reachable_counter_wf p false Hr) as [_ Hposf]. simpl in *.
  exists (od_keys (success_counter p)),
    ((λ kv, rate_entry py_truediv py_mul_int (fail_counter p) kv.1 kv.2) <$> success_counter p).
  split_and!.
  - unfold success_rate.
    rewrite (success_rate_loop_Ret py_truediv py_mul_int p (success_counter p) [] []);
      [done|done|].
    apply Forall_lookup. intros i [t s] Hi. simpl. split.
    + eapply (Forall_lookup_1 _ _ _ _ Hpos Hi).
    + by apply (od_get_lookup _ i).
  - done.
  - unfold od_keys. by rewrite !length_fmap.
  - intros i t s Hi. unfold OrderedDict in *. split.
    + unfold od_keys. by rewrite list_lookup_fmap, Hi.
    + by rewrite list_lookup_fmap, Hi.
  - intros t Ht. by apply od_get_None.
  - intros s f Hs Hf. unfold exact_mul_int, exact_truediv.
    rewrite (Z.add_comm s f), inject_Z_mult. unfold Qdiv.
    rewrite (Qmult_comm (inject_Z 100)), <- !Qmult_assoc.
    apply Qmult_comp; [reflexivity|]. apply Qmult_comm.
Qed.

Lemma success_rate_series_witness :
  let p := mkPattern "a.com" (mkChecker []) None None
             [("12:00", 1); ("12:01", 2)] [("11:59", 1); ("12:00", 2)] in
  ∃ values,
    success_rate PrimFloat.float py_truediv py_mul_int p = Ret (["12:00"; "12:01"], values) ∧
    values = [NFloat (PrimFloat.mul (PrimFloat.div (py_float 1) (py_float 3)) (py_float 100));
              NInt 100].
Proof.
  intros p.
  destruct (success_rate_series p) as (labels & values & H1 & -> & H2 & H3 & _).
  - exists "a.com", None, None, (mkChecker []),
      [("11:59", false); ("12:00", true); ("12:00", false); ("12:00", false);
       ("12:01", true); ("12:01", true)].
    reflexivity.
  - refine (bool_decide_unpack _ _). vm_compute. exact I.
  - refine (bool_decide_unpack _ _). vm_compute. exact I.
  - exists values. split; [exact H1|].
    destruct (H3 0%nat "12:00" 1 eq_refl) as [_ Ha].
    destruct (H3 1%nat "12:01" 2 eq_refl) as [_ Hb].
    destruct values as [|a [|b [|c values]]]; try discriminate H2.
    injection Ha as ->. injection Hb as ->. reflexivity.
Defined.

(** C6 as stated fails: the value is not the one of the formula
    [100 * s / (s + f)].  For one success and two failures under one
    label the call returns a float that is below the float
    [100 * 1 / (1 + 2)], and the number it stands for is not the
    rational 100/3 either. *)
Lemma success_rate_not_claimed_formula :
  let p := mkPattern "a.com" (mkChecker []) None None [("12:00", 1)] [("12:00", 2)] in
  reachable p ∧
  ∃ x q,
    success_rate PrimFloat.float py_truediv py_mul_int p = Ret (["12:00"], [NFloat x]) ∧
    x ≠ py_truediv (100 * 1) (1 + 2) ∧
    PrimFloat.ltb x (py_truediv (100 * 1) (1 + 2)) = true ∧
    float_exact x = Some q ∧
    ¬ Qeq q (Qdiv (inject_Z (100 * 1)) (inject_Z (1 + 2))).
Proof.
  intros p. split.
  { exists "a.com", None, None, (mkChecker []),
      [("12:00", true); ("12:00", false); ("12:00", false)].
    reflexivity. }
  exists (py_mul_int (py_truediv 1 (2 + 1)) 100).
  eexists. split_and!.
  - reflexivity.
  - intros H.
    apply (f_equal (λ z, PrimFloat.eqb z (py_truediv (100 * 1) (1 + 2)))) in H.
    vm_compute in H. discriminate H.
  - vm_compute. reflexivity.
  - vm_compute. reflexivity.
  - unfold Qeq. vm_compute. discriminate.
Qed.

(* ===================================================================== *)
(** * The serialized record: decoding what was encoded *)
(* ===================================================================== *)

Lemma append_assoc a b c : (a +:+ b) +:+ c = a +:+ b +:+ c.
Proof. induction a as [|x a IH]; [done|]. by rewrite !append_String, IH. Qed.

Lemma length_append a b : String.length (a +:+ b) = (String.length a + String.length b)%nat.
Proof. induction a as [|x a IH]; [done|]. rewrite append_String. simpl. by rewrite IH. Qed.

(** One escaped character is read back as itself. *)
Lemma scanstring_escape_char c rest :
  scanstring (escape_char c +:+ rest) = cons_fst c <$> scanstring rest.
Proof. destruct c as [[] [] [] [] [] [] [] []]; reflexivity. Qed.

Lemma scanstring_escape s r : scanstring (escape s +:+ String dquote r) = Some (s, r).
Proof.
  induction s as [|c s IH]; [done|].
  cbn [escape]. by rewrite append_assoc, scanstring_escape_char, IH.
Qed.

Lemma parse_str_dumps_str s r : parse_str (dumps_str s +:+ r) = Some (s, r).
Proof.
  unfold dumps_str. rewrite append_String. cbn [parse_str].
  replace (N_of_ascii dquote =? 34)%N with true by reflexivity.
  by rewrite append_assoc, append_String, scanstring_escape.
Qed.

Lemma skip_ws_dumps_str s r : skip_ws (dumps_str s +:+ r) = dumps_str s +:+ r.
Proof. reflexivity. Qed.

Lemma parse_scalar_dumps v r : parse_scalar (dumps_scalar v +:+ r) = Some (v, r).
Proof.
  destruct v as [|s]; [reflexivity|].
  unfold parse_scalar. cbn [dumps_scalar].
  replace (startswith (dumps_str s +:+ r) "null") with false by reflexivity.
  by rewrite parse_str_dumps_str.
Qed.

Lemma skip_ws_dumps_scalar v r : skip_ws (dumps_scalar v +:+ r) = dumps_scalar v +:+ r.
Proof. destruct v; reflexivity. Qed.

Lemma parse_items_space fuel s : parse_items fuel (String " " s) = parse_items fuel s.
Proof. destruct fuel; reflexivity. Qed.

(** The members written by [dumps] are read back, whatever follows the
    closing brace. *)
Lemma parse_items_dumps d fuel r :
  d ≠ [] → (length d ≤ fuel)%nat →
  parse_items fuel (dumps_items d +:+ String "}" r) = Some (d, r).
Proof.
  revert fuel. induction d as [|[k v] d IH]; intros fuel Hne Hfuel; [done|].
  destruct fuel as [|fuel]; simpl in Hfuel; [lia|].
  cbn [dumps_items parse_items]. rewrite !append_assoc.
  change (skip_ws (dumps_str k +:+ ?x)) with (dumps_str k +:+ x).
  rewrite parse_str_dumps_str. cbn [mbind option_bind].
  change (skip_ws (": " +:+ ?x)) with (String ":" (String " " x)).
  cbv beta iota. change (N_of_ascii ":" =? 58)%N with true. cbv beta iota.
  change (skip_ws (String " " ?x)) with (skip_ws x).
  rewrite skip_ws_dumps_scalar, parse_scalar_dumps. cbn [mbind option_bind].
  destruct d as [|kv d].
  - rewrite append_empty. reflexivity.
  - rewrite append_assoc.
    change (skip_ws (", " +:+ ?x)) with (String "," (String " " x)).
    cbv beta iota. change (N_of_ascii "," =? 44)%N with true. cbv beta iota.
    rewrite parse_items_space, IH; [reflexivity|done|simpl in *; lia].
Qed.

Lemma length_dumps_items d : (length d ≤ String.length (dumps_items d))%nat.
Proof.
  induction d as [|[k v] d IH]; [simpl; lia|].
  cbn [dumps_items length]. rewrite !length_append.
  assert (1 ≤ String.length (dumps_str k))%nat by (unfold dumps_str; simpl; lia).
  destruct d as [|kv d]; [simpl; lia|].
  rewrite length_append. lia.
Qed.

(** [json.loads(json.dumps(d))] is [d]. *)
Lemma loads_dumps d : loads (dumps d) = Some d.
Proof.
  unfold dumps, loads.
  change (skip_ws ("{" +:+ ?x)) with (String "{" x). cbv beta iota.
  change (N_of_ascii "{" =? 123)%N with true. cbv beta iota.
  destruct d as [|[k v] d]; [reflexivity|].
  pose proof (length_dumps_items ((k, v) :: d)) as Hlen.
  pose proof (parse_items_dumps ((k, v) :: d)
                (String.length (dumps_items ((k, v) :: d) +:+ "}")) EmptyString) as Hp.
  rewrite length_append in Hp. specialize (Hp ltac:(done) ltac:(lia)).
  rewrite <- length_append in Hp.
  set (items := dumps_items ((k, v) :: d)) in *.
  assert (skip_ws (items +:+ "}") = String dquote (str_drop 1 (items +:+ "}"))) as ->
    by reflexivity.
  cbv beta iota. change (N_of_ascii dquote =? 125)%N with false. cbv beta iota.
  rewrite Hp. reflexivity.
Qed.

(** C7. Serializing a pattern ([to_dict], then [dumps]) and building a
    pattern from the record ([json.loads], then the constructor as
    [PatternManager.patterns] calls it) succeeds and gives a pattern
    with the same pattern string, the same rule and the same value. *)
Theorem pattern_roundtrip (p : Pattern) (c : Checker) :
  ∃ p', Pattern_loads c (Pattern_dumps p) = Some p' ∧
        Pattern_of_dict c (to_dict p) = Some p' ∧
        _pattern_str p' = _pattern_str p ∧ rule p' = rule p ∧ value p' = value p.
Proof.
  exists (Pattern_init (_pattern_str p) (rule p) (value p) c).
  assert (Pattern_of_dict c (to_dict p)
          = Some (Pattern_init (_pattern_str p) (rule p) (value p) c)) as Hd.
  { unfold Pattern_of_dict, to_dict. destruct (rule p), (value p); reflexivity. }
  split; [|split; [done|done]].
  unfold Pattern_loads, Pattern_dumps. rewrite loads_dumps. exact Hd.
Qed.

(* ===================================================================== *)
(** * CheckPatternTrie *)
(* ===================================================================== *)

Lemma str_prefixes_lookup s i k :
  str_prefixes s !! i = Some k → String.length k = i ∧ startswith s k = true.
Proof.
  revert i k. induction s as [|c s IH]; intros i k; simpl.
  - destruct i as [|i]; simpl; [|by destruct i]. by intros [= <-].
  - destruct i as [|i]; simpl; [by intros [= <-]|].
    rewrite list_lookup_fmap. destruct (str_prefixes s !! i) as [k'|] eqn:E; [|done].
    intros [= <-]. destruct (IH _ _ E) as [H1 H2]. simpl.
    rewrite decide_True by done. auto.
Qed.

Lemma str_prefixes_complete s k :
  startswith s k = true → str_prefixes s !! String.length k = Some k.
Proof.
  revert k. induction s as [|c s IH]; intros k; destruct k as [|a k]; simpl; try done.
  destruct (decide (a = c)) as [->|]; [|done].
  intros H. by rewrite list_lookup_fmap, (IH _ H).
Qed.

Lemma last_omap_Some {A B} (f : A → option B) (l : list A) (y : B) :
  last (omap f l) = Some y →
  ∃ i x, l !! i = Some x ∧ f x = Some y ∧
         ∀ j x', (i < j)%nat → l !! j = Some x' → f x' = None.
Proof.
  induction l as [|x l IH] using rev_ind; [done|].
  rewrite omap_app. simpl. destruct (f x) as [y'|] eqn:E.
  - rewrite last_snoc. intros [= <-]. exists (length l), x. split; [|split; [done|]].
    + by rewrite lookup_app_r, Nat.sub_diag by lia.
    + intros j x' Hj Hl. apply lookup_lt_Some in Hl. rewrite length_app in Hl.
      simpl in Hl. lia.
  - rewrite app_nil_r. intros H. destruct (IH H) as (i & x0 & Hi & Hf & Hmax).
    exists i, x0. split; [|split; [done|]].
    + by apply lookup_app_l_Some.
    + intros j x' Hj Hl. destruct (decide (j < length l)%nat) as [Hlt|Hge].
      * rewrite lookup_app_l in Hl by done. eauto.
      * rewrite lookup_app_r in Hl by lia.
        destruct (j - length l)%nat; simpl in Hl; [|by destruct n].
        by injection Hl as <-.
Qed.

Lemma last_omap_None {A B} (f : A → option B) (l : list A) :
  last (omap f l) = None → ∀ x, x ∈ l → f x = None.
Proof.
  intros H x Hx. apply last_None in H.
  destruct (f x) as [y|] eqn:E; [|done].
  assert (y ∈ omap f l) as Hy by (apply list_elem_of_omap; eauto).
  rewrite H in Hy. inversion Hy.
Qed.

(** [longest_prefix] finds a stored key that starts the query and is at
    least as long as every other stored key that does. *)
Lemma longest_prefix_Some t u k v :
  longest_prefix t u = Some (k, v) →
  t !! k = Some v ∧ startswith u k = true ∧
  ∀ k', is_Some (t !! k') → startswith u k' = true →
        (String.length k' ≤ String.length k)%nat.
Proof.
  unfold longest_prefix, trie_prefixes. intros H.
  apply last_omap_Some in H as (i & k0 & Hi & Hf & Hmax).
  destruct (t !! k0) as [v0|] eqn:E; [|done]. simpl in Hf. injection Hf as -> ->.
  destruct (str_prefixes_lookup _ _ _ Hi) as [Hlen Hpre].
  split; [done|split; [done|]].
  intros k' [v' Hv'] Hk'.
  destruct (decide (String.length k' ≤ String.length k)%nat) as [|Hgt]; [done|].
  pose proof (Hmax (String.length k') k' ltac:(lia) (str_prefixes_complete _ _ Hk')) as Hn.
  cbv beta in Hn. by rewrite Hv' in Hn.
Qed.

Lemma longest_prefix_None t u k :
  longest_prefix t u = None → startswith u k = true → t !! k = None.
Proof.
  unfold longest_prefix, trie_prefixes. intros H Hk.
  pose proof (last_omap_None _ _ H k) as Hn.
  destruct (t !! k) as [v|] eqn:E; [|done].
  exfalso. specialize (Hn ltac:(eapply list_elem_of_lookup_2, str_prefixes_complete, Hk)).
  cbv beta in Hn. by rewrite E in Hn.
Qed.

(** What [closest_pattern] returns, in terms of the string the code
    normalizes the URL to. *)
Lemma closest_pattern_spec t url :
  let u := _remove_http_prefix url in
  (∃ k v, closest_pattern t url = (k, v) ∧ t !! k = Some v ∧ startswith u k = true ∧
          ∀ k', is_Some (t !! k') → startswith u k' = true →
                (String.length k' ≤ String.length k)%nat) ∨
  (closest_pattern t url = ("public_proxies", dumps [("rule", JNull); ("value", JNull)]) ∧
   ∀ k, startswith u k = true → t !! k = None).
Proof.
  intros u. unfold closest_pattern. fold u.
  destruct (longest_prefix t u) as [[k v]|] eqn:E.
  - left. exists k, v. split; [done|]. by apply longest_prefix_Some.
  - right. split; [done|]. intros k. by apply longest_prefix_None.
Qed.

Lemma _remove_http_prefix_http r : _remove_http_prefix ("http://" +:+ r) = r.
Proof.
  unfold _remove_http_prefix. change (startswith ("http://" +:+ r) "http") with true.
  cbv beta iota. cbn [re_sub_http]. change (startswith ("http://" +:+ r) "https://") with false.
  reflexivity.
Qed.

Lemma _remove_http_prefix_https r : _remove_http_prefix ("https://" +:+ r) = r.
Proof. reflexivity. Qed.

Lemma _remove_http_prefix_other url :
  startswith url "http" = false → _remove_http_prefix url = url.
Proof. unfold _remove_http_prefix. by intros ->. Qed.

(** The code and the specification normalize alike on every URL that
    starts with a protocol prefix or does not start with [http]. *)
Lemma _remove_http_prefix_strip url :
  startswith url "http" = false ∨ startswith url "http://" = true
  ∨ startswith url "https://" = true →
  _remove_http_prefix url = strip_protocol_prefix url.
Proof.
  intros [H|[H|H]].
  - rewrite _remove_http_prefix_other by done. unfold strip_protocol_prefix.
    destruct (startswith url "https://") eqn:E1.
    + apply startswith_spec in E1 as [r ->]. discriminate H.
    + destruct (startswith url "http://") eqn:E2; [|done].
      apply startswith_spec in E2 as [r ->]. discriminate H.
  - apply startswith_spec in H as [r ->]. by rewrite _remove_http_prefix_http.
  - apply startswith_spec in H as [r ->]. by rewrite _remove_http_prefix_https.
Qed.

(** The scenario of the specification: a pattern registered for
    [a.com] answers the query [http://a.com/x], and a query no stored
    key starts gets the sentinel. *)
Lemma closest_pattern_scenario v :
  closest_pattern (trie_setitem "a.com" v ∅) "http://a.com/x" = ("a.com", v) ∧
  closest_pattern (trie_setitem "a.com" v ∅) "b.com"
  = ("public_proxies", dumps [("rule", JNull); ("value", JNull)]).
Proof.
  split.
  - destruct (closest_pattern_spec (trie_setitem "a.com" v ∅) "http://a.com/x")
      as [(k & v' & Hc & Hk & Hpre & Hmax)|[_ Hnone]].
    + rewrite Hc. unfold trie_setitem in Hk.
      apply lookup_insert_Some in Hk as [[<- <-]|[_ Hk]]; [done|].
      by rewrite lookup_empty in Hk.
    + specialize (Hnone "a.com" ltac:(reflexivity)).
      unfold trie_setitem in Hnone. change (_remove_http_prefix "a.com") with "a.com" in Hnone.
      by rewrite lookup_insert_eq in Hnone.
  - destruct (closest_pattern_spec (trie_setitem "a.com" v ∅) "b.com")
      as [(k & v' & Hc & Hk & Hpre & Hmax)|[Hc _]]; [|done].
    unfold trie_setitem in Hk.
    apply lookup_insert_Some in Hk as [[<- <-]|[_ Hk]]; [discriminate Hpre|].
    by rewrite lookup_empty in Hk.
Qed.

Lemma closest_pattern_scenario_key v :
  closest_pattern (<["a.com" := v]> ∅) "http://a.com" = ("a.com", v).
Proof.
  destruct (closest_pattern_spec (<["a.com" := v]> ∅) "http://a.com")
    as [(k & v' & Hc & Hk & Hpre & Hmax)|[_ Hnone]].
  - rewrite Hc. apply lookup_insert_Some in Hk as [[<- <-]|[_ Hk]]; [done|].
    by rewrite lookup_empty in Hk.
  - specialize (Hnone "a.com" ltac:(reflexivity)).
    by rewrite lookup_insert_eq in Hnone.
Qed.

(** C2. The code cuts the first [http://] or [https://] out of any URL
    that starts with [http], wherever it stands.  The URL
    [httpbin.org/get?u=http://a.com] has no protocol prefix and no
    stored key starts it, yet [closest_pattern] answers with the entry
    stored under [httpbin.org/get?u=a.com] and not with the sentinel. *)
Theorem closest_pattern_inner_scheme (v : string) :
  let t := trie_setitem "httpbin.org/get?u=a.com" v ∅ in
  let url := "httpbin.org/get?u=http://a.com" in
  strip_protocol_prefix url = url ∧
  _remove_http_prefix url = "httpbin.org/get?u=a.com" ∧
  (∀ k, is_Some (t !! k) → startswith (strip_protocol_prefix url) k = false) ∧
  closest_pattern t url = ("httpbin.org/get?u=a.com", v) ∧
  closest_pattern t url ≠ ("public_proxies", dumps [("rule", JNull); ("value", JNull)]).
Proof.
  intros t url.
  assert (closest_pattern t url = ("httpbin.org/get?u=a.com", v)) as Hc.
  { destruct (closest_pattern_spec t url)
      as [(k & v' & Hc & Hk & Hpre & Hmax)|[_ Hnone]].
    - rewrite Hc. unfold t, trie_setitem in Hk.
      apply lookup_insert_Some in Hk as [[<- <-]|[_ Hk]]; [done|].
      by rewrite lookup_empty in Hk.
    - specialize (Hnone "httpbin.org/get?u=a.com" ltac:(reflexivity)).
      unfold t, trie_setitem in Hnone.
      change (_remove_http_prefix "httpbin.org/get?u=a.com")
        with "httpbin.org/get?u=a.com" in Hnone.
      by rewrite lookup_insert_eq in Hnone. }
  split; [reflexivity|]. split; [reflexivity|]. split; [|split; [done|]].
  - intros k [v' Hk]. unfold t, trie_setitem in Hk.
    apply lookup_insert_Some in Hk as [[<- <-]|[_ Hk]]; [reflexivity|].
    by rewrite lookup_empty in Hk.
  - rewrite Hc. discriminate.
Qed.

(* ===================================================================== *)
(** * PatternManager *)
(* ===================================================================== *)

(** [add] with a pattern the normalization leaves alone: index, trie
    and store get the entry under one key, and keep agreeing on their
    keys if they did. *)
Lemma add_plain_keys_agree m pattern r v :
  _remove_http_prefix pattern = pattern →
  let m' := add m pattern r v in
  is_Some (_patterns m' !! pattern) ∧ is_Some (t m' !! pattern) ∧
  is_Some (redis m' !! pattern) ∧
  (dom (_patterns m) = dom (t m) → dom (t m) = dom (redis m) →
   dom (_patterns m') = dom (t m') ∧ dom (t m') = dom (redis m')).
Proof.
  intros Hp m'. unfold m', add, trie_setitem. simpl. rewrite Hp.
  rewrite !lookup_insert_eq. repeat split; eauto.
  - rewrite !dom_insert_L. congruence.
  - rewrite !dom_insert_L. congruence.
Qed.

(** C3. After [add("http://a.com", rule, value)] on an empty manager
    the index and the store hold the entry under the string as given,
    [http://a.com], and nothing under [a.com]; the trie holds it under
    the normalized [a.com] and nothing under [http://a.com]: the index
    is not keyed by the normalized string and the three do not agree on
    their keys. *)
Theorem add_index_key_not_normalized (c : Checker) (r v : option string) :
  let m := add (empty_manager c) "http://a.com" r v in
  let p := Pattern_init "http://a.com" r v c in
  _patterns m !! "http://a.com" = Some p ∧ _patterns m !! "a.com" = None ∧
  t m !! "a.com" = Some (Pattern_dumps p) ∧ t m !! "http://a.com" = None ∧
  redis m !! "http://a.com" = Some (Pattern_dumps p) ∧ redis m !! "a.com" = None ∧
  dom (_patterns m) ≠ dom (t m) ∧
  get_pattern m (closest_pattern (t m) "http://a.com").1 = None.
Proof.
  intros m p. unfold m, add, empty_manager, trie_setitem. simpl.
  change (_remove_http_prefix "http://a.com") with "a.com".
  assert (closest_pattern (<["a.com" := Pattern_dumps p]> ∅) "http://a.com"
          = ("a.com", Pattern_dumps p)) as Hc
    by apply (closest_pattern_scenario_key (Pattern_dumps p)).
  split_and!.
  - apply lookup_insert_eq.
  - rewrite lookup_insert_ne by done. apply lookup_empty.
  - apply lookup_insert_eq.
  - rewrite lookup_insert_ne by done. apply lookup_empty.
  - apply lookup_insert_eq.
  - rewrite lookup_insert_ne by done. apply lookup_empty.
  - rewrite !dom_insert_L, !dom_empty_L. intros H.
    assert ("a.com" ∈ ({["http://a.com"]} ∪ ∅ : gset string)) as Hin
      by (rewrite H; set_solver).
    apply elem_of_union in Hin as [Hin|Hin]; [|by apply not_elem_of_empty in Hin].
    apply elem_of_singleton in Hin. discriminate Hin.
  - unfold get_pattern. simpl. fold p. rewrite Hc. simpl.
    by rewrite lookup_insert_ne, lookup_empty.
Qed.

Lemma delete_present m pattern v p :
  t m !! pattern = Some v → _patterns m !! pattern = Some p →
  delete_pattern m pattern
  = (mkManager (mgr_checker m) (delete pattern (_patterns m)) (delete pattern (t m))
               (delete pattern (redis m)), None).
Proof. intros Ht Hp. unfold delete_pattern, trie_delitem. by rewrite Ht, Hp. Qed.

Lemma delete_absent_trie m pattern :
  t m !! pattern = None → delete_pattern m pattern = (m, Some (KeyError pattern)).
Proof. intros Ht. unfold delete_pattern, trie_delitem. by rewrite Ht. Qed.

Lemma delete_absent_index m pattern v :
  t m !! pattern = Some v → _patterns m !! pattern = None →
  (delete_pattern m pattern).2 = Some (KeyError pattern).
Proof. intros Ht Hp. unfold delete_pattern, trie_delitem. by rewrite Ht, Hp. Qed.

(** A pattern string the normalization leaves alone can be deleted
    after it was added, and is then gone from index, trie and store. *)
Lemma delete_after_add_plain m pattern r v :
  _remove_http_prefix pattern = pattern →
  let m' := (delete_pattern (add m pattern r v) pattern).1 in
  (delete_pattern (add m pattern r v) pattern).2 = None ∧
  _patterns m' !! pattern = None ∧ t m' !! pattern = None ∧ redis m' !! pattern = None.
Proof.
  intros Hp.
  rewrite (delete_present _ pattern
             (Pattern_dumps (Pattern_init pattern r v (mgr_checker m)))
             (Pattern_init pattern r v (mgr_checker m))).
  - simpl. split_and!; [done | apply lookup_delete_eq ..].
  - unfold add, trie_setitem. simpl. rewrite Hp. apply lookup_insert_eq.
  - unfold add. simpl. apply lookup_insert_eq.
Qed.

(** C8. [delete] raises when the key is not in the trie or not in the
    index, and removes the entry from all three when it is in both; but
    after [add("http://a.com", rule, value)] the call
    [delete("http://a.com")] raises [KeyError]: the trie stored the
    entry under [a.com] and is asked for [http://a.com].  Nothing is
    removed. *)
Theorem delete_after_add_raises (c : Checker) (r v : option string) :
  let m := add (empty_manager c) "http://a.com" r v in
  delete_pattern m "http://a.com" = (m, Some (KeyError "http://a.com")) ∧
  is_Some (_patterns m !! "http://a.com") ∧ is_Some (t m !! "a.com") ∧
  is_Some (redis m !! "http://a.com").
Proof.
  intros m. split_and!.
  - apply delete_absent_trie. unfold m, add, empty_manager, trie_setitem. simpl.
    change (_remove_http_prefix "http://a.com") with "a.com".
    rewrite lookup_insert_ne by done. apply lookup_empty.
  - unfold m, add. simpl. rewrite lookup_insert_eq. eauto.
  - unfold m, add, trie_setitem. simpl.
    change (_remove_http_prefix "http://a.com") with "a.com".
    rewrite lookup_insert_eq. eauto.
  - unfold m, add. simpl. rewrite lookup_insert_eq. eauto.
Qed.

(* ===================================================================== *)
(** * Concurrent calls of Pattern.counter *)
(* ===================================================================== *)

Lemma od_replace_length k v c : length (od_replace k v c) = length c.
Proof.
  induction c as [|[k' v'] c IH]; simpl; [done|].
  destruct (decide (k' = k)); simpl; auto.
Qed.

(** One call on a map of at most ten labels: the label is there
    afterwards, its count one higher than before (from zero when it is
    new), and the map still has at most ten labels. *)
Lemma counter_next_get now c :
  (length c ≤ 10)%nat →
  od_get now (counter_next now c) = Some (default 0 (od_get now c) + 1) ∧
  (length (counter_next now c) ≤ 10)%nat.
Proof.
  intros Hlen. unfold counter_next, od_setitem, OrderedDict in *.
  set (v := default 0 (od_get now c) + 1).
  destruct (od_mem now c) eqn:E.
  - pose proof (od_replace_length now v c) as Hr.
    replace (length (od_replace now v c) - 10)%nat with 0%nat by lia.
    rewrite drop_0. split; [|lia].
    apply od_get_replace. by apply od_mem_true.
  - assert (now ∉ od_keys c) as Hn.
    { intros H. apply od_mem_true in H. congruence. }
    rewrite length_app. simpl.
    destruct (decide (length c < 10)%nat) as [Hlt|Hge].
    + replace (length c + 1 - 10)%nat with 0%nat by lia.
      rewrite drop_0, length_app. simpl. split; [by apply od_get_app_fresh | lia].
    + replace (length c + 1 - 10)%nat with 1%nat by lia.
      destruct c as [|x c]; [simpl in *; lia|].
      change (drop 1 ((x :: c) ++ [(now, v)])) with (c ++ [(now, v)]).
      rewrite length_app. simpl in *. split; [|lia].
      apply od_get_app_fresh. apply not_elem_of_cons in Hn. tauto.
Qed.

Lemma sum_list_insert (f : task → nat) ts i tk tk' :
  ts !! i = Some tk →
  (sum_list (f <$> <[i := tk']> ts) + f tk = sum_list (f <$> ts) + f tk')%nat.
Proof.
  revert i. induction ts as [|x ts IH]; intros i Hi; [done|].
  destruct i as [|i].
  - injection Hi as ->. change (<[0%nat := tk']> (tk :: ts)) with (tk' :: ts).
    rewrite !fmap_cons. simpl. lia.
  - change (<[S i := tk']> (x :: ts)) with (x :: <[i := tk']> ts).
    rewrite !fmap_cons. simpl. specialize (IH i Hi). lia.
Qed.

Section Gather.

Variables (p0 : Pattern) (now : string) (valid : bool).
Hypothesis Hlen0 : (length (counter_of p0 valid) ≤ 10)%nat.

Lemma gather_inv_init n : gather_inv p0 now valid (gather p0 now valid n).
Proof.
  unfold gather_inv, gather. simpl. split_and!.
  - apply Forall_replicate. done.
  - done.
  - replace (sum_list (past_body <$> replicate n (mkTask now valid Waiting))) with 0%nat.
    + lia.
    + induction n; simpl; auto.
  - induction n; simpl; auto.
Qed.

Lemma gather_inv_step s s' : gather_inv p0 now valid s → step s s' → gather_inv p0 now valid s'.
Proof.
  intros (Hall & Hlen & Hcnt & Hlock) Hstep.
  destruct Hstep as [s i tk Hi Hpc Hfree | s i tk p' Hi Hpc Hbody | s i tk Hi Hpc];
    unfold gather_inv; simpl.
  - split_and!; try done.
    + apply Forall_insert; [done|]. apply (Forall_lookup_1 _ _ _ _ Hall Hi).
    + pose proof (sum_list_insert past_body _ _ _ (at_pc tk Entered) Hi) as H.
      unfold past_body in *. simpl t_pc in H. rewrite Hpc in H.
      rewrite Hcnt. do 2 f_equal. lia.
    + pose proof (sum_list_insert in_block _ _ _ (at_pc tk Entered) Hi) as H.
      unfold in_block in *. simpl t_pc in H. rewrite Hpc in H.
      rewrite Hfree in Hlock. lia.
  - destruct (Forall_lookup_1 _ _ _ _ Hall Hi) as [Hnow Hvalid].
    rewrite Hnow, Hvalid, counter_total in Hbody. injection Hbody as <-.
    rewrite counter_of_with_same.
    destruct (counter_next_get now _ Hlen) as [Hget Hlen'].
    split_and!; try done.
    + apply Forall_insert; [done|]. by split.
    + pose proof (sum_list_insert past_body _ _ _ (at_pc tk Leaving) Hi) as H.
      unfold past_body in *. simpl t_pc in H. rewrite Hpc in H.
      rewrite Hget. simpl. rewrite Hcnt. lia.
    + pose proof (sum_list_insert in_block _ _ _ (at_pc tk Leaving) Hi) as H.
      unfold in_block in *. simpl t_pc in H. rewrite Hpc in H. lia.
  - split_and!; try done.
    + apply Forall_insert; [done|]. apply (Forall_lookup_1 _ _ _ _ Hall Hi).
    + pose proof (sum_list_insert past_body _ _ _ (at_pc tk Finished) Hi) as H.
      unfold past_body in *. simpl t_pc in H. rewrite Hpc in H.
      rewrite Hcnt. do 2 f_equal. lia.
    + pose proof (sum_list_insert in_block _ _ _ (at_pc tk Finished) Hi) as H.
      unfold in_block in *. simpl t_pc in H. rewrite Hpc in H.
      destruct (locked s); lia.
Qed.

Lemma gather_inv_steps s s' : gather_inv p0 now valid s → steps s s' → gather_inv p0 now valid s'.
Proof. intros Hinv Hsteps. induction Hsteps; eauto using gather_inv_step. Qed.

Lemma steps_length s s' : steps s s' → length (tasks s') = length (tasks s).
Proof.
  intros Hsteps. induction Hsteps as [|s1 s2 s3 Hstep _ IH]; [done|].
  rewrite IH. destruct Hstep; simpl; apply length_insert.
Qed.

End Gather.

Lemma steps_trans s1 s2 s3 : steps s1 s2 → steps s2 s3 → steps s1 s3.
Proof. intros H12 H23. induction H12; eauto using steps_cons. Qed.

Lemma steps_one s1 s2 : step s1 s2 → steps s1 s2.
Proof. intros H. eapply steps_cons; [exact H | apply steps_refl]. Qed.

Lemma all_finished_past_body ts :
  Forall (λ tk, t_pc tk = Finished) ts → sum_list (past_body <$> ts) = length ts.
Proof.
  induction 1 as [|tk ts Hpc _ IH]; [done|].
  rewrite fmap_cons. simpl. unfold past_body at 1. by rewrite Hpc, IH.
Qed.

Lemma sum_list_pos (f : task → nat) ts :
  (0 < sum_list (f <$> ts))%nat → ∃ i tk, ts !! i = Some tk ∧ (0 < f tk)%nat.
Proof.
  induction ts as [|x ts IH]; [simpl; lia|].
  rewrite fmap_cons. simpl. intros H.
  destruct (decide (0 < f x)%nat) as [Hx|Hx].
  - by exists 0%nat, x.
  - destruct IH as (i & tk & Hi & Htk); [lia|]. by exists (S i), tk.
Qed.

(** One call run from start to end while the others stand still. *)
Lemma run_one_call p pre tk post :
  t_pc tk = Waiting →
  steps (mkSys false p (pre ++ tk :: post))
        (mkSys false (with_counter p (t_valid tk)
                        (counter_next (t_now tk) (counter_of p (t_valid tk))))
               (pre ++ at_pc tk Finished :: post)).
Proof.
  intros Hpc.
  assert (∀ a b, <[length pre := b]> (pre ++ a :: post) = pre ++ b :: post) as Hins.
  { intros a b. rewrite insert_app_r_alt, Nat.sub_diag by lia. done. }
  eapply steps_cons.
  { apply (step_acquire _ (length pre) tk); [by apply list_lookup_middle|done|done]. }
  simpl. rewrite Hins. eapply steps_cons.
  { apply (step_body _ (length pre) (at_pc tk Entered)); simpl;
      [by apply list_lookup_middle | done | apply counter_total]. }
  simpl. rewrite Hins. eapply steps_cons.
  { apply (step_release _ (length pre) (at_pc (at_pc tk Entered) Leaving)); simpl;
      [by apply list_lookup_middle | done]. }
  simpl. rewrite Hins. apply steps_refl.
Qed.

(** The gathered calls can all be run to their end. *)
Lemma gather_complete_run p now valid n :
  ∃ s', steps (gather p now valid n) s' ∧ all_finished s'.
Proof.
  unfold gather.
  change (replicate n (mkTask now valid Waiting))
    with ([] ++ replicate n (mkTask now valid Waiting)).
  assert (Forall (λ tk, t_pc tk = Finished) ([] : list task)) as Hpre by constructor.
  revert Hpre. generalize ([] : list task) as pre. revert p.
  induction n as [|n IH]; intros p pre Hpre.
  - exists (mkSys false p (pre ++ [])). split; [apply steps_refl|].
    unfold all_finished. simpl. by rewrite app_nil_r.
  - set (tk := mkTask now valid Waiting).
    destruct (IH (with_counter p valid (counter_next now (counter_of p valid)))
                 (pre ++ [at_pc tk Finished])) as (s' & Hs & Hf).
    { apply Forall_app. split; [done|]. by apply Forall_singleton. }
    exists s'. split; [|done].
    eapply steps_trans; [apply (run_one_call p pre tk (replicate n tk)); done|].
    simpl. by rewrite <- app_assoc in Hs.
Qed.

(** No deadlock: while a call is unfinished, some call can take a
    step. *)
Lemma gather_progress p0 now valid s :
  gather_inv p0 now valid s → ¬ all_finished s → ∃ s', step s s'.
Proof.
  intros (_ & _ & _ & Hlock) Hnf.
  assert (∀ i tk, tasks s !! i = Some tk → t_pc tk ≠ Waiting → t_pc tk ≠ Finished →
                  ∃ s', step s s') as Hrun.
  { intros i tk Hi H1 H2. destruct (t_pc tk) eqn:Hpc; try done.
    - eexists. eapply step_body; [exact Hi | exact Hpc | apply counter_total].
    - eexists. eapply step_release; [exact Hi | exact Hpc]. }
  apply not_Forall_Exists in Hnf; [|intros tk; apply _].
  apply Exists_exists in Hnf as (tk & Hin & Hpc).
  apply list_elem_of_lookup in Hin as [i Hi].
  destruct (decide (t_pc tk = Waiting)) as [Hw|Hw]; [|by apply (Hrun i tk)].
  destruct (locked s) eqn:Hl.
  - destruct (sum_list_pos in_block (tasks s)) as (j & tk' & Hj & Hpos); [lia|].
    apply (Hrun j tk' Hj); unfold in_block in Hpos; destruct (t_pc tk'); (done || lia).
  - eexists. eapply step_acquire; [exact Hi | exact Hw | exact Hl].
Qed.

(** C9. [n] calls of [counter] for one label, gathered on one pattern
    whose map has at most ten labels, in whatever order the event loop
    runs them: at every moment at most one call is inside the block the
    lock guards, and once all calls have returned the count of the
    label is its count before plus [n]; on a map that did not have the
    label it is exactly [n]. *)
Theorem gather_counter_exact p now valid n s' :
  (length (counter_of p valid) ≤ 10)%nat →
  steps (gather p now valid n) s' →
  (sum_list (in_block <$> tasks s') ≤ 1)%nat ∧
  (all_finished s' →
   default 0 (od_get now (counter_of (pat s') valid))
   = default 0 (od_get now (counter_of p valid)) + Z.of_nat n ∧
   (od_get now (counter_of p valid) = None → (0 < n)%nat →
    od_get now (counter_of (pat s') valid) = Some (Z.of_nat n))).
Proof.
  intros Hlen Hsteps.
  assert (gather_inv p now valid s') as (_ & _ & Hcnt & Hlock)
    by (eapply gather_inv_steps; eauto using gather_inv_init).
  split; [rewrite Hlock; destruct (locked s'); lia|].
  intros Hf. rewrite (all_finished_past_body _ Hf) in Hcnt.
  rewrite (steps_length _ _ Hsteps) in Hcnt. unfold gather in Hcnt. simpl in Hcnt.
  rewrite length_replicate in Hcnt. split; [done|].
  intros Hnone Hn. rewrite Hnone in Hcnt. simpl in Hcnt.
  destruct (od_get now (counter_of (pat s') valid)) as [c|]; simpl in Hcnt; [|lia].
  by rewrite Hcnt.
Qed.

Lemma gather_counter_exact_witness :
  ∃ s', steps (gather (Pattern_init "a.com" None None (mkChecker [])) "12:00" true 3) s' ∧
        all_finished s' ∧
        od_get "12:00" (counter_of (pat s') true) = Some 3.
Proof.
  destruct (gather_complete_run (Pattern_init "a.com" None None (mkChecker []))
              "12:00" true 3) as (s' & Hs & Hf).
  exists s'. split; [exact Hs|]. split; [exact Hf|].
  destruct (gather_counter_exact (Pattern_init "a.com" None None (mkChecker []))
              "12:00" true 3 s') as [_ H].
  - simpl. lia.
  - exact Hs.
  - destruct (H Hf) as [_ H2]. apply H2; [reflexivity | lia].
Defined.

(* ===================================================================== *)
(** * Checker: the rule branches *)
(* ===================================================================== *)

Lemma lstrip_empty s : lstrip s = EmptyString ↔ all_space s = true.
Proof.
  induction s as [|c s IH]; simpl; [done|].
  destruct (isspace c); simpl; [done|]. split; intros H; discriminate H.
Qed.

Lemma rstrip_lstrip_nonempty s : lstrip s ≠ EmptyString → rstrip (lstrip s) ≠ EmptyString.
Proof.
  induction s as [|c s IH]; simpl; [done|].
  destruct (isspace c) eqn:E; [done|]. intros _. simpl.
  destruct (rstrip s); [by rewrite E | done].
Qed.

Lemma strip_length_zero s : (String.length (strip s) =? 0)%nat = all_space s.
Proof.
  unfold strip. destruct (all_space s) eqn:E.
  - apply lstrip_empty in E. by rewrite E.
  - assert (lstrip s ≠ EmptyString) as Hn by (rewrite lstrip_empty; congruence).
    apply rstrip_lstrip_nonempty in Hn. by destruct (rstrip (lstrip s)).
Qed.

(** X1. Whitelist rule with a value, status accepted, body free of
    blacklisted words: the check passes exactly when the value occurs
    in the body, and otherwise returns the whitelist diagnostic naming
    the value. *)
Theorem whitelist_check xpath_first self c text v :
  _status_code_checker c = true →
  blacklist_hit (global_blacklist self) text = None →
  (check xpath_first self c text (Some "whitelist") (Some v) = Ret None
   ↔ ∃ a b, text = a +:+ v +:+ b) ∧
  ((¬ ∃ a b, text = a +:+ v +:+ b) →
   check xpath_first self c text (Some "whitelist") (Some v)
   = Ret (Some ("whitelist check failed, " +:+ v +:+ " not found"))).
Proof.
  intros Hc Hb. rewrite <- str_in_spec.
  assert (check xpath_first self c text (Some "whitelist") (Some v)
          = if str_in v text then Ret None
            else Ret (Some ("whitelist check failed, " +:+ v +:+ " not found"))) as E.
  { unfold check. rewrite Hc, Hb. simpl. by destruct (str_in v text). }
  rewrite E. destruct (str_in v text); split; try done.
Qed.

Lemma whitelist_check_witness :
  check (λ _ _, XIndexError) (mkChecker []) (Some 200) "status: OK"
        (Some "whitelist") (Some "OK") = Ret None.
Proof.
  apply (whitelist_check (λ _ _, XIndexError) (mkChecker []) (Some 200)
           "status: OK" "OK"); [reflexivity | reflexivity |].
  exists "status: ", EmptyString. reflexivity.
Defined.

(** X2. A rule other than the whitelist, status accepted, body free of
    blacklisted words: when the rule or the value is absent, empty or
    made of spaces only, nothing is checked and the call passes;
    otherwise the result is that of the structured query, which passes
    only when the first result of the query is a string equal to the
    value. *)
Theorem structured_check xpath_first self c text rule value :
  _status_code_checker c = true →
  blacklist_hit (global_blacklist self) text = None →
  rule ≠ Some "whitelist" →
  check xpath_first self c text rule value
  = match rule, value with
    | Some r, Some v =>
        if all_space r || all_space v then Ret None
        else Ret (_xpath_checker xpath_first text r v)
    | _, _ => Ret None
    end ∧
  (∀ r v, _xpath_checker xpath_first text r v = None
          ↔ xpath_first text r = XFirst (XStr v)).
Proof.
  intros Hc Hb Hr. split.
  - unfold check. rewrite Hc, Hb. simpl. rewrite bool_decide_eq_false_2 by done.
    destruct rule as [r|], value as [v|]; try done.
    rewrite !strip_length_zero.
    destruct r as [|a r]; [done|]. destruct v as [|b v].
    { simpl. by rewrite orb_true_r. }
    cbn [truthy andb]. by destruct (all_space (String a r)), (all_space (String b v)).
  - intros r v. unfold _xpath_checker.
    destruct (xpath_first text r) as [[s|]| |trace]; simpl; try (split; discriminate).
    destruct (bool_decide (s = v)) eqn:E.
    + apply bool_decide_eq_true in E. subst. done.
    + apply bool_decide_eq_false in E. split; [discriminate | intros [= ->]; done].
Qed.

Lemma structured_check_witness :
  check (λ _ _, XIndexError) (mkChecker []) (Some 200) "<html></html>"
        (Some "//title/text()") (Some "Home")
  = Ret (Some "xpath check failed, //title/text() not found").
Proof.
  destruct (structured_check (λ _ _, XIndexError) (mkChecker []) (Some 200)
              "<html></html>" (Some "//title/text()") (Some "Home")) as [H _];
    [reflexivity | reflexivity | discriminate |].
  exact H.
Defined.

(** X3. [Checker.check] raises in one situation only: a whitelist rule
    without a value, on a response whose status is accepted and whose
    body has no blacklisted word.  Every fault of the structured query
    comes back as a diagnostic. *)
Theorem check_raises_only xpath_first self c text rule value e :
  check xpath_first self c text rule value = Raise e →
  e = TypeError ∧ rule = Some "whitelist" ∧ value = None ∧
  _status_code_checker c = true ∧
  ∀ w, w ∈ global_blacklist self → str_in w text = false.
Proof.
  unfold check. destruct (_status_code_checker c); simpl; [|discriminate].
  destruct (blacklist_hit (global_blacklist self) text) eqn:Hb; [discriminate|].
  destruct (bool_decide (rule = Some "whitelist")) eqn:Hr.
  - apply bool_decide_eq_true in Hr. destruct value as [v|]; simpl.
    + by destruct (negb (str_in v text)).
    + intros [= <-]. split_and!; try done. by apply blacklist_hit_None.
  - destruct rule, value; try discriminate.
    by destruct (truthy _ && truthy _ && _ && _).
Qed.

Lemma check_raises_only_witness :
  TypeError = TypeError ∧ Some "whitelist" = Some "whitelist" ∧ (None : option string) = None.
Proof.
  destruct (check_raises_only (λ _ _, XIndexError) (mkChecker []) (Some 200) "body"
              (Some "whitelist") None TypeError) as (H1 & H2 & H3 & _); [reflexivity|].
  exact (conj H1 (conj H2 H3)).
Defined.

(* ===================================================================== *)
(** * Pattern.counter: invariant and the three cases of a call *)
(* ===================================================================== *)

(** X4. Every pattern the program can build keeps, in both maps, at
    most ten labels, no label twice and only counts of one or more; a
    further call of [counter] never raises and gives such a pattern
    again. *)
Theorem counter_invariant p now valid :
  reachable p →
  (∀ v, (length (counter_of p v) ≤ 10)%nat ∧ NoDup (od_keys (counter_of p v)) ∧
        Forall (λ kv, 1 ≤ kv.2) (counter_of p v)) ∧
  ∃ p', counter p now valid = Ret p' ∧ reachable p'.
Proof.
  intros Hr. split.
  - intros v. destruct (reachable_counter_wf p v Hr) as [Hnd Hpos].
    split_and!; [|done|].
    + destruct Hr as (s & r & val & ch & calls & Hrun).
      destruct (counter_calls_total (Pattern_init s r val ch) calls) as (p' & Hp' & Hc).
      rewrite Hrun in Hp'. injection Hp' as <-. specialize (Hc v).
      replace (counter_of (Pattern_init s r val ch) v) with ([] : OrderedDict) in Hc
        by (by destruct v).
      rewrite <- (length_fmap fst). fold (od_keys (counter_of p v)).
      rewrite Hc, od_keys_foldl. apply (keys_foldl_inv (calls_for v calls)).
    + eapply Forall_impl; [exact Hpos|]. intros kv H. simpl in H. lia.
  - rewrite counter_total. eexists. split; [done|].
    destruct Hr as (s & r & val & ch & calls & Hrun).
    exists s, r, val, ch, (calls ++ [(now, valid)]).
    revert Hrun. generalize (Pattern_init s r val ch). clear.
    induction calls as [|[l b] calls IH]; intros q Hrun; simpl in *.
    + injection Hrun as <-. by rewrite counter_total.
    + rewrite counter_total in *. simpl in *. by apply IH.
Qed.

Lemma counter_invariant_witness :
  ∃ p', counter (mkPattern "a.com" (mkChecker []) None None [("12:00", 2)] [])
                "12:01" true = Ret p' ∧ reachable p'.
Proof.
  destruct (counter_invariant (mkPattern "a.com" (mkChecker []) None None [("12:00", 2)] [])
              "12:01" true) as [_ H]; [|exact H].
  exists "a.com", None, None, (mkChecker []), [("12:00", true); ("12:00", true)].
  reflexivity.
Defined.

Lemma od_get_replace_ne k k' v c : k ≠ k' → od_get k' (od_replace k v c) = od_get k' c.
Proof.
  intros Hne. induction c as [|[k0 v0] c IH]; simpl; [done|].
  destruct (decide (k0 = k)) as [->|Hk]; simpl.
  - by rewrite !decide_False by done.
  - destruct (decide (k0 = k')); [done | exact IH].
Qed.

(** X5. What one call of [counter] does to the chosen map, when it
    holds at most ten labels.  A label that is there has its count
    raised by one; its place, the other labels and their counts stay.
    A new label is added last with count one, and only when the map
    already holds ten labels the first (oldest) entry leaves.  The
    other map, the pattern string, the rule and the value never
    change. *)
Theorem counter_cases p now valid :
  (length (counter_of p valid) ≤ 10)%nat →
  ∃ c', counter p now valid = Ret (with_counter p valid c') ∧
        counter_of (with_counter p valid c') (negb valid) = counter_of p (negb valid) ∧
        match od_get now (counter_of p valid) with
        | Some n =>
            c' = od_replace now (n + 1) (counter_of p valid) ∧
            od_keys c' = od_keys (counter_of p valid) ∧
            od_get now c' = Some (n + 1) ∧
            ∀ k, k ≠ now → od_get k c' = od_get k (counter_of p valid)
        | None =>
            if decide (length (counter_of p valid) < 10)%nat
            then c' = counter_of p valid ++ [(now, 1)]
            else c' = drop 1 (counter_of p valid) ++ [(now, 1)]
        end.
Proof.
  intros Hlen. exists (counter_next now (counter_of p valid)).
  split; [apply counter_total|]. split; [apply counter_of_with_other|].
  unfold counter_next, od_setitem, od_mem.
  set (c := counter_of p valid) in *. unfold OrderedDict in *.
  destruct (od_get now c) as [n|] eqn:E; simpl.
  - pose proof (od_replace_length now (n + 1) c) as Hr.
    replace (length (od_replace now (n + 1) c) - 10)%nat with 0%nat by lia.
    rewrite drop_0. split_and!; [done|apply od_keys_replace| |].
    + apply od_get_replace. apply od_mem_true. unfold od_mem. by rewrite E.
    + intros k Hk. by apply od_get_replace_ne.
  - rewrite length_app. simpl. destruct (decide (length c < 10)%nat) as [Hlt|Hge].
    + replace (length c + 1 - 10)%nat with 0%nat by lia. by rewrite drop_0.
    + replace (length c + 1 - 10)%nat with 1%nat by lia.
      destruct c as [|x c]; [simpl in *; lia | done].
Qed.

Lemma counter_cases_witness :
  ∃ c', counter (mkPattern "a.com" (mkChecker []) None None
                   [("12:00", 2); ("12:01", 1)] []) "12:00" true
        = Ret (with_counter (mkPattern "a.com" (mkChecker []) None None
                               [("12:00", 2); ("12:01", 1)] []) true c') ∧
        c' = [("12:00", 3); ("12:01", 1)].
Proof.
  destruct (counter_cases (mkPattern "a.com" (mkChecker []) None None
                             [("12:00", 2); ("12:01", 1)] []) "12:00" true)
    as (c' & H1 & _ & H2); [simpl; lia|].
  exists c'. split; [exact H1|]. simpl in H2. exact (proj1 H2).
Defined.

(* ===================================================================== *)
(** * counter and success_rate together *)
(* ===================================================================== *)

Lemma counter_next_first t : counter_next t [] = [(t, 1)].
Proof. reflexivity. Qed.

Lemma counter_next_again t n : counter_next t [(t, n)] = [(t, n + 1)].
Proof.
  unfold counter_next, od_setitem, od_mem. simpl. rewrite decide_True by done.
  simpl. by rewrite decide_True by done.
Qed.

Lemma foldl_same_label t k :
  foldl (λ c now, counter_next now c) [] (replicate k t)
  = match k with O => [] | S _ => [(t, Z.of_nat k)] end.
Proof.
  induction k as [|k IH]; [done|].
  rewrite replicate_S_end, foldl_app, IH. simpl foldl.
  destruct k as [|k]; [done|]. rewrite counter_next_again. do 2 f_equal. lia.
Qed.

Lemma calls_for_same_label t v flags :
  calls_for v ((λ b, (t, b)) <$> flags) = replicate (length (filter (λ b, b = v) flags)) t.
Proof.
  unfold calls_for. induction flags as [|b flags IH]; [done|].
  rewrite fmap_cons, !filter_cons. simpl.
  destruct (decide (b = v)); [|exact IH].
  rewrite fmap_cons, IH. reflexivity.
Qed.

(** X6. On a new pattern, after any mix of successes and failures
    recorded under one label [t]: with no success the series is empty,
    even when there were failures; with successes and no failure it is
    the integer 100; with [n] successes and [m] failures it is the
    float [(n / (m + n)) * 100]. *)
Theorem success_rate_after_calls {float : Type} (truediv : Z → Z → float)
    (mul_int : float → Z → float) pattern_str r v c t (flags : list bool) :
  let n := length (filter (λ b, b = true) flags) in
  let m := length (filter (λ b, b = false) flags) in
  ∃ p, counter_calls (Pattern_init pattern_str r v c) ((λ b, (t, b)) <$> flags) = Ret p ∧
       success_rate float truediv mul_int p
       = Ret (match n, m with
              | O, _ => ([], [])
              | S _, O => ([t], [NInt 100])
              | S _, S _ =>
                  ([t], [NFloat (mul_int (truediv (Z.of_nat n) (Z.of_nat m + Z.of_nat n)) 100)])
              end).
Proof.
  intros n m.
  destruct (counter_calls_total (Pattern_init pattern_str r v c) ((λ b, (t, b)) <$> flags))
    as (p & Hp & Hc).
  exists p. split; [done|].
  pose proof (Hc true) as Hs. pose proof (Hc false) as Hf. simpl in Hs, Hf.
  rewrite calls_for_same_label, foldl_same_label in Hs, Hf. fold n in Hs. fold m in Hf.
  unfold success_rate. rewrite Hs.
  destruct n as [|n']; [done|]. simpl. unfold rate_at, od_mem, od_getitem. rewrite Hf, Hs.
  destruct m as [|m']; [done|]. simpl. rewrite !decide_True by done. simpl.
  unfold int_truediv. destruct (Z.eqb_spec (Z.of_nat (S m') + Z.of_nat (S n')) 0); [lia|done].
Qed.

(* ===================================================================== *)
(** * PatternManager: add, update, delete *)
(* ===================================================================== *)

(** X7. After [add] the index answers the pattern string with a new
    pattern carrying the rule and the value and two empty counters, so
    that [update] of a registered pattern loses its counts; every other
    entry of the index is as before, and the store has the serialized
    record under the same string. *)
Theorem add_then_get_pattern m pattern r v :
  get_pattern (add m pattern r v) pattern
  = Some (mkPattern pattern (mgr_checker m) r v [] []) ∧
  get_pattern (update m pattern r v) pattern
  = Some (mkPattern pattern (mgr_checker m) r v [] []) ∧
  (∀ k, k ≠ pattern → get_pattern (add m pattern r v) k = get_pattern m k) ∧
  (∀ k, k ≠ pattern → redis (add m pattern r v) !! k = redis m !! k) ∧
  ∃ rec, redis (add m pattern r v) !! pattern = Some rec ∧
         Pattern_loads (mgr_checker m) rec = Some (mkPattern pattern (mgr_checker m) r v [] []).
Proof.
  unfold update, get_pattern, add. simpl. split_and!.
  - apply lookup_insert_eq.
  - apply lookup_insert_eq.
  - intros k Hk. by apply lookup_insert_ne.
  - intros k Hk. by apply lookup_insert_ne.
  - eexists. split; [apply lookup_insert_eq|].
    unfold Pattern_loads, Pattern_dumps. rewrite loads_dumps.
    unfold Pattern_of_dict, to_dict. simpl. by destruct r, v.
Qed.

(** X8. The three ways [delete] can end.  Key in the trie and in the
    index: no exception, the key is gone from trie, index and store and
    every other key is untouched.  Key in the trie but not in the
    index: [KeyError], raised after the trie entry was removed, with
    index and store as they were.  Key not in the trie: [KeyError] and
    nothing has changed. *)
Theorem delete_cases m pattern :
  let m' := (delete_pattern m pattern).1 in
  match t m !! pattern, _patterns m !! pattern with
  | Some _, Some _ =>
      (delete_pattern m pattern).2 = None ∧
      _patterns m' !! pattern = None ∧ t m' !! pattern = None ∧ redis m' !! pattern = None ∧
      ∀ k, k ≠ pattern →
           _patterns m' !! k = _patterns m !! k ∧ t m' !! k = t m !! k ∧
           redis m' !! k = redis m !! k
  | Some _, None =>
      (delete_pattern m pattern).2 = Some (KeyError pattern) ∧
      t m' = delete pattern (t m) ∧ _patterns m' = _patterns m ∧ redis m' = redis m
  | None, _ =>
      delete_pattern m pattern = (m, Some (KeyError pattern))
  end.
Proof.
  intros m'. unfold m', delete_pattern, trie_delitem.
  destruct (t m !! pattern) as [rec|] eqn:Ht; [|done].
  destruct (_patterns m !! pattern) as [p|] eqn:Hp; simpl; [|done].
  split_and!; try done; try apply lookup_delete_eq.
  intros k Hk. split_and!; by apply lookup_delete_ne.
Qed.

(** X9. [add] of a pattern string the normalization leaves alone and
    that is new to index, trie and store, followed by [delete] of the
    same string, ends without exception in the state before the
    [add]. *)
Theorem add_then_delete m pattern r v :
  _remove_http_prefix pattern = pattern →
  _patterns m !! pattern = None → t m !! pattern = None → redis m !! pattern = None →
  delete_pattern (add m pattern r v) pattern = (m, None).
Proof.
  intros Hn Hp Ht Hr.
  rewrite (delete_present _ pattern
             (Pattern_dumps (Pattern_init pattern r v (mgr_checker m)))
             (Pattern_init pattern r v (mgr_checker m))).
  - unfold add, trie_setitem. simpl. rewrite Hn.
    rewrite !delete_insert_eq, !delete_id by done. by destruct m.
  - unfold add, trie_setitem. simpl. rewrite Hn. apply lookup_insert_eq.
  - unfold add. simpl. apply lookup_insert_eq.
Qed.

Lemma add_then_delete_witness :
  delete_pattern (add (empty_manager (mkChecker [])) "a.com" (Some "whitelist") (Some "OK"))
                 "a.com"
  = (empty_manager (mkChecker []), None).
Proof.
  apply (add_then_delete (empty_manager (mkChecker [])) "a.com" (Some "whitelist") (Some "OK"));
    reflexivity.
Defined.

(* ===================================================================== *)
(** * PatternManager: start-up *)
(* ===================================================================== *)

Lemma Pattern_loads_dumps c p :
  Pattern_loads c (Pattern_dumps p) = Some (Pattern_init (_pattern_str p) (rule p) (value p) c).
Proof.
  unfold Pattern_loads, Pattern_dumps. rewrite loads_dumps.
  unfold Pattern_of_dict, to_dict. destruct (rule p), (value p); reflexivity.
Qed.

Lemma mapM_Pattern_loads_written c (recs : list string) :
  Forall (λ rec, ∃ p, rec = Pattern_dumps p) recs →
  ∃ ps, mapM (Pattern_loads c) recs = Some ps ∧
        Forall2 (λ rec p', ∃ p, rec = Pattern_dumps p ∧
                   p' = Pattern_init (_pattern_str p) (rule p) (value p) c) recs ps.
Proof.
  induction 1 as [|rec recs [p ->] _ (ps & Hps & HF)].
  - exists []. split; [done|constructor].
  - exists (Pattern_init (_pattern_str p) (rule p) (value p) c :: ps). split.
    + simpl. rewrite Pattern_loads_dumps. simpl. by rewrite Hps.
    + constructor; [eauto|done].
Qed.

(** X10. Over a store in which every record was written by this module
    (each value is the [dumps] of a pattern, as [add] stores it),
    [patterns()] returns: one pattern per field of the store, each with
    the pattern string, rule and value of a stored record, bound to the
    manager's checker and with empty counters; and every stored record
    is the source of one of them. *)
Theorem patterns_of_written_store c (d : gmap string string) :
  (∀ k rec, d !! k = Some rec → ∃ p, rec = Pattern_dumps p) →
  ∃ ps, patterns c d = Some ps ∧
        length ps = size d ∧
        (∀ p', p' ∈ ps →
           ∃ k p, d !! k = Some (Pattern_dumps p) ∧
                  p' = mkPattern (_pattern_str p) c (rule p) (value p) [] []) ∧
        (∀ k p, d !! k = Some (Pattern_dumps p) →
           mkPattern (_pattern_str p) c (rule p) (value p) [] [] ∈ ps).
Proof.
  intros Hd. unfold patterns.
  destruct (mapM_Pattern_loads_written c (map_to_list d).*2) as (ps & Hps & HF).
  { apply Forall_forall. intros rec Hin.
    apply list_elem_of_fmap in Hin as ([k rec'] & -> & Hin).
    apply elem_of_map_to_list in Hin. eauto. }
  exists ps. split; [done|]. split_and!.
  - rewrite <- (Forall2_length _ _ _ HF), length_fmap. apply length_map_to_list.
  - intros p' Hin. apply list_elem_of_lookup in Hin as [i Hi].
    destruct (Forall2_lookup_r _ _ _ _ _ HF Hi) as (rec & Hrec & p & -> & ->).
    apply list_elem_of_lookup_2 in Hrec.
    apply list_elem_of_fmap in Hrec as ([k rec'] & Heq & Hin). simpl in Heq. subst rec'.
    apply elem_of_map_to_list in Hin. by exists k, p.
  - intros k p Hk. apply elem_of_map_to_list in Hk.
    assert (Pattern_dumps p ∈ (map_to_list d).*2) as Hin.
    { apply list_elem_of_fmap. by exists (k, Pattern_dumps p). }
    apply list_elem_of_lookup in Hin as [i Hi].
    destruct (Forall2_lookup_l _ _ _ _ _ HF Hi) as (p' & Hp' & q & Hq & ->).
    apply list_elem_of_lookup_2 in Hp'.
    pose proof (Pattern_loads_dumps c p) as H1.
    pose proof (Pattern_loads_dumps c q) as H2.
    rewrite Hq in H1. rewrite H1 in H2. injection H2 as E1 E2 E3.
    unfold Pattern_init in Hp'. by rewrite <- E1, <- E2, <- E3 in Hp'.
Qed.

Lemma patterns_of_written_store_witness :
  ∃ ps, patterns (mkChecker [])
          {[ "http://a.com" := Pattern_dumps (Pattern_init "http://a.com" (Some "whitelist")
                                                (Some "ok") (mkChecker ["denied"])) ]}
        = Some ps ∧
        ps = [mkPattern "http://a.com" (mkChecker []) (Some "whitelist") (Some "ok") [] []].
Proof.
  destruct (patterns_of_written_store (mkChecker [])
              {[ "http://a.com" := Pattern_dumps (Pattern_init "http://a.com" (Some "whitelist")
                                                    (Some "ok") (mkChecker ["denied"])) ]})
    as (ps & Hps & Hlen & Hin & _).
  { intros k rec Hk. apply lookup_singleton_Some in Hk as [_ <-]. eauto. }
  exists ps. split; [exact Hps|].
  rewrite map_size_singleton in Hlen.
  destruct ps as [|p' [|? ?]]; simpl in Hlen; try lia.
  destruct (Hin p' ltac:(left)) as (k & p & Hk & ->).
  apply lookup_singleton_Some in Hk as [_ Hk].
  pose proof (Pattern_loads_dumps (mkChecker []) p) as H1. rewrite <- Hk in H1.
  rewrite Pattern_loads_dumps in H1. injection H1 as <- <- <-. reflexivity.
Defined.


(* ===================================================================== *)
(** * CheckPatternTrie: resolution *)
(* ===================================================================== *)

(** X12. For a URL that starts with [http://] or [https://], or does
    not start with [http] at all, [closest_pattern] answers with a
    stored key that starts the URL without its protocol prefix, with
    the value stored under it, and no stored key that starts it is
    longer; when no stored key starts it, the answer is the sentinel
    [public_proxies] with the serialized null rule and null value. *)
Theorem closest_pattern_longest_prefix (tr : gmap string string) url :
  startswith url "http" = false ∨ startswith url "http://" = true
  ∨ startswith url "https://" = true →
  let u := strip_protocol_prefix url in
  (∃ k v rest, closest_pattern tr url = (k, v) ∧ tr !! k = Some v ∧ u = k +:+ rest ∧
               ∀ k' rest', is_Some (tr !! k') → u = k' +:+ rest' →
                           (String.length k' ≤ String.length k)%nat) ∨
  (closest_pattern tr url = ("public_proxies", dumps [("rule", JNull); ("value", JNull)]) ∧
   ∀ k rest, u = k +:+ rest → tr !! k = None).
Proof.
  intros Hurl u. unfold u. rewrite <- (_remove_http_prefix_strip url Hurl).
  destruct (closest_pattern_spec tr url) as [(k & v & Hc & Hk & Hpre & Hmax)|[Hc Hnone]].
  - left. apply startswith_spec in Hpre as [rest Hrest].
    exists k, v, rest. split_and!; try done.
    intros k' rest' Hk' Hu. apply Hmax; [done|]. apply startswith_spec. eauto.
  - right. split; [done|]. intros k rest Hu. apply Hnone, startswith_spec. eauto.
Qed.

Lemma closest_pattern_longest_prefix_witness :
  closest_pattern (<["a.com" := "r1"]> (<["a.com/x" := "r2"]> ∅)) "https://a.com/x/y"
  = ("a.com/x", "r2").
Proof.
  destruct (closest_pattern_longest_prefix
              (<["a.com" := "r1"]> (<["a.com/x" := "r2"]> ∅)) "https://a.com/x/y")
    as [(k & v & rest & Hc & Hk & Hu & Hmax)|[_ Hnone]].
  - right. right. reflexivity.
  - rewrite Hc.
    pose proof (Hmax "a.com/x" "/y" ltac:(by eexists) ltac:(reflexivity)) as Hlen.
    apply lookup_insert_Some in Hk as [[<- <-]|[_ Hk]]; [simpl in Hlen; lia|].
    apply lookup_insert_Some in Hk as [[<- <-]|[_ Hk]]; [done|].
    by rewrite lookup_empty in Hk.
  - specialize (Hnone "a.com" "/x/y" ltac:(reflexivity)). discriminate Hnone.
Defined.

Lemma append_empty_r s : s +:+ EmptyString = s.
Proof. induction s as [|c s IH]; [done|]. by rewrite append_String, IH. Qed.

Lemma startswith_full u k :
  startswith u k = true → (String.length u ≤ String.length k)%nat → k = u.
Proof.
  intros H Hlen. apply startswith_spec in H as [r ->].
  rewrite length_append in Hlen. destruct r; [by rewrite append_empty_r|].
  simpl in Hlen. lia.
Qed.

(** X13. A key stored through [__setitem__] is found again under the
    same string: [closest_pattern] of the string just stored returns
    the normalized key and the stored value, whatever else the trie
    holds.  With [add] this is the record of the new pattern. *)
Theorem setitem_then_closest_pattern (tr : gmap string string) key v :
  closest_pattern (trie_setitem key v tr) key = (_remove_http_prefix key, v) ∧
  ∀ m r val,
    closest_pattern (t (add m key r val)) key
    = (_remove_http_prefix key, Pattern_dumps (Pattern_init key r val (mgr_checker m))).
Proof.
  assert (∀ t0 v0, closest_pattern (trie_setitem key v0 t0) key
                   = (_remove_http_prefix key, v0)) as H.
  { intros t0 v0. unfold trie_setitem.
    assert (startswith (_remove_http_prefix key) (_remove_http_prefix key) = true) as Huu
      by (apply startswith_spec; exists EmptyString; by rewrite append_empty_r).
    destruct (closest_pattern_spec (<[_remove_http_prefix key := v0]> t0) key)
      as [(k & v' & Hc & Hk & Hpre & Hmax)|[_ Hnone]].
    - pose proof (Hmax (_remove_http_prefix key)
                    ltac:(rewrite lookup_insert_eq; eauto) Huu) as Hlen.
      apply startswith_full in Hpre; [|done]. subst k.
      rewrite lookup_insert_eq in Hk. injection Hk as <-. exact Hc.
    - specialize (Hnone _ Huu). by rewrite lookup_insert_eq in Hnone. }
  split; [apply H|]. intros m r val. apply H.
Qed.

(* ===================================================================== *)
(** * PatternManager.status *)
(* ===================================================================== *)

Lemma list_index_Some t x i : list_index t x = Some i → x !! i = Some t.
Proof.
  revert i. induction x as [|a x IH]; intros i; simpl; [done|].
  destruct (decide (a = t)) as [->|Hne].
  - by intros [= <-].
  - destruct (list_index t x) as [j|]; simpl; [|done]. intros [= <-]. by apply IH.
Qed.

Lemma list_index_None t x : list_index t x = None → t ∉ x.
Proof.
  induction x as [|a x IH]; simpl; [intros _ H; inversion H|].
  destruct (decide (a = t)) as [->|Hne]; [done|].
  destruct (list_index t x) as [j|]; simpl; [done|]. intros _.
  apply not_elem_of_cons. split; [congruence | by apply IH].
Qed.

Section StatusFacts.

Context {float : Type}.
Variable truediv : Z → Z → float.
Variable mul_int : float → Z → float.

(** The loop over the labels of the success map, fed with their rates:
    it ends, keeps the length of [y], and writes into the slot of each
    label of [x] that the map has. *)
Lemma status_serial_spec x fc ents pre y :
  NoDup x → NoDup (od_keys ents) → length y = length x →
  ∃ y', status_serial float x (od_keys ents)
          (pre ++ ((λ kv, rate_entry truediv mul_int fc kv.1 kv.2) <$> ents))
          (length pre) y = Some y' ∧
        length y' = length x ∧
        ∀ j t, x !! j = Some t →
               y' !! j = match od_get t ents with
                         | Some s => Some (rate_entry truediv mul_int fc t s)
                         | None => y !! j
                         end.
Proof.
  intros Hx. revert pre y.
  induction ents as [|[t s] ents IH]; intros pre y Hnd Hlen.
  - exists y. by split_and!.
  - change (od_keys ((t, s) :: ents)) with (t :: od_keys ents) in *.
    apply NoDup_cons in Hnd as [Ht Hnd].
    rewrite fmap_cons. cbn [status_serial fst snd].
    set (v := rate_entry truediv mul_int fc t s).
    set (rest := (λ kv, rate_entry truediv mul_int fc kv.1 kv.2) <$> ents).
    assert (pre ++ v :: rest = (pre ++ [v]) ++ rest) as Hmid by (by rewrite <- app_assoc).
    assert (S (length pre) = length (pre ++ [v])) as Hi
      by (rewrite length_app; simpl; lia).
    assert (∀ t', od_get t' ((t, s) :: ents)
                  = if decide (t = t') then Some s else od_get t' ents) as Hget by done.
    destruct (list_index t x) as [ind|] eqn:Eind.
    + apply list_index_Some in Eind.
      rewrite list_lookup_middle by done.
      pose proof (lookup_lt_Some _ _ _ Eind) as Hind.
      rewrite decide_True by lia. rewrite Hmid, Hi.
      destruct (IH (pre ++ [v]) (<[ind := v]> y) Hnd) as (y' & Hy' & Hlen' & Hslots);
        [by rewrite length_insert|].
      exists y'. split_and!; [done|done|].
      intros j t' Hj. rewrite (Hslots j t' Hj), Hget.
      destruct (decide (t = t')) as [<-|Hne].
      * assert (j = ind) as -> by exact (NoDup_lookup x j ind t Hx Hj Eind).
        apply od_get_None in Ht. rewrite Ht.
        apply list_lookup_insert_eq. lia.
      * destruct (od_get t' ents); [done|].
        apply list_lookup_insert_ne. intros <-. congruence.
    + apply list_index_None in Eind. rewrite Hmid, Hi.
      destruct (IH (pre ++ [v]) y Hnd Hlen) as (y' & Hy' & Hlen' & Hslots).
      exists y'. split_and!; [done|done|].
      intros j t' Hj. rewrite (Hslots j t' Hj), Hget.
      destruct (decide (t = t')) as [<-|Hne]; [|done].
      destruct Eind. by eapply list_elem_of_lookup_2.
Qed.

Lemma status_of_pattern_spec x p :
  NoDup x → length x = 10%nat → reachable p →
  ∃ y, status_of_pattern float truediv mul_int x p = Some (mkItem (_pattern_str p) y) ∧
       length y = 10%nat ∧
       ∀ j t, x !! j = Some t →
              y !! j = Some (match od_get t (success_counter p) with
                             | Some s => rate_entry truediv mul_int (fail_counter p) t s
                             | None => NInt 0
                             end).
Proof.
  intros Hx Hlen Hr.
  destruct (reachable_counter_wf p true Hr) as [Hnd Hpos].
  destruct (reachable_counter_wf p false Hr) as [_ Hposf]. simpl in *.
  unfold status_of_pattern, success_rate.
  rewrite (success_rate_loop_Ret truediv mul_int p (success_counter p) [] []); [|done|].
  - simpl.
    destruct (status_serial_spec x (fail_counter p) (success_counter p) []
                (replicate 10 (NInt 0)) Hx Hnd) as (y & Hy & Hleny & Hslots).
    { by rewrite length_replicate. }
    simpl in Hy. rewrite Hy. simpl. exists y. split_and!; [done|lia|].
    intros j t Hj. rewrite (Hslots j t Hj).
    destruct (od_get t (success_counter p)); [done|].
    apply lookup_replicate_2. apply lookup_lt_Some in Hj. lia.
  - apply Forall_lookup. intros i [t s] Hi. simpl. split.
    + eapply (Forall_lookup_1 _ _ _ _ Hpos Hi).
    + by apply (od_get_lookup _ i).
Qed.

End StatusFacts.

(** X14. [status()] over ten distinct minute labels [x], on a manager
    whose patterns were all built by the constructor and [counter]:
    the call returns [x] and one item per pattern of the index; the
    item of a pattern carries its string and a series of ten slots, and
    the slot of a label holds the pattern's success rate for that label
    when its success map has the label, and 0 when it has not (also
    when only failures were counted under the label). *)
Theorem manager_status_series {float : Type} (truediv : Z → Z → float)
    (mul_int : float → Z → float) (x : list string) (m : PatternManager) :
  NoDup x → length x = 10%nat →
  (∀ k p, _patterns m !! k = Some p → reachable p) →
  ∃ items,
    manager_status float truediv mul_int x m = Some (x, items) ∧
    length items = size (_patterns m) ∧
    ∀ k p, _patterns m !! k = Some p →
      ∃ item, item ∈ items ∧ item_pattern item = _pattern_str p ∧
              length (item_serial item) = 10%nat ∧
              ∀ j t, x !! j = Some t →
                     item_serial item !! j
                     = Some (match od_get t (success_counter p) with
                             | Some s => rate_entry truediv mul_int (fail_counter p) t s
                             | None => NInt 0
                             end).
Proof.
  intros Hx Hlen Hreach. unfold manager_status.
  assert (Forall (λ p, reachable p) (map_to_list (_patterns m)).*2) as HF.
  { apply Forall_forall. intros p Hin.
    apply list_elem_of_fmap in Hin as ([k p'] & -> & Hin).
    apply elem_of_map_to_list in Hin. eauto. }
  assert (is_Some (mapM (status_of_pattern float truediv mul_int x)
                        (map_to_list (_patterns m)).*2)) as [items Hitems].
  { apply mapM_is_Some. eapply Forall_impl; [exact HF|]. intros p Hp. simpl.
    destruct (status_of_pattern_spec truediv mul_int x p Hx Hlen Hp) as (y & Hy & _).
    rewrite Hy. eauto. }
  rewrite Hitems. simpl. exists items. split; [done|].
  apply mapM_Some in Hitems. split.
  - apply Forall2_length in Hitems. rewrite <- Hitems, length_fmap.
    apply length_map_to_list.
  - intros k p Hk.
    assert (p ∈ (map_to_list (_patterns m)).*2) as Hin.
    { apply list_elem_of_fmap. exists (k, p). split; [done|].
      by apply elem_of_map_to_list. }
    apply list_elem_of_lookup in Hin as [i Hi].
    destruct (Forall2_lookup_l _ _ _ _ _ Hitems Hi) as (item & Hitem & Hst).
    destruct (status_of_pattern_spec truediv mul_int x p Hx Hlen (Hreach k p Hk))
      as (y & Hy & Hleny & Hslots).
    rewrite Hy in Hst. injection Hst as <-.
    exists (mkItem (_pattern_str p) y). split_and!; try done.
    by eapply list_elem_of_lookup_2.
Qed.

Lemma manager_status_series_witness :
  let x := ["11:51"; "11:52"; "11:53"; "11:54"; "11:55";
            "11:56"; "11:57"; "11:58"; "11:59"; "12:00"] in
  let m := add (empty_manager (mkChecker [])) "a.com" None None in
  ∃ items, manager_status Q exact_truediv exact_mul_int x m = Some (x, items) ∧
           length items = size (_patterns m).
Proof.
  intros x m.
  destruct (manager_status_series exact_truediv exact_mul_int x m)
    as (items & H1 & H2 & _).
  - refine (bool_decide_unpack (NoDup x) _). vm_compute. exact I.
  - reflexivity.
  - intros k p Hk. unfold m, add, empty_manager in Hk. simpl in Hk.
    apply lookup_insert_Some in Hk as [[_ <-]|[_ Hk]]; [|by rewrite lookup_empty in Hk].
    exists "a.com", None, None, (mkChecker []), []. reflexivity.
  - exists items. split; [exact H1 | exact H2].
Defined.

(* ===================================================================== *)
(** * Normalization and the trie built at start-up *)
(* ===================================================================== *)

Lemma str_in_cons_false w c s : str_in w (String c s) = false →
  startswith (String c s) w = false ∧ str_in w s = false.
Proof. cbn [str_in]. intros H. by apply orb_false_elim in H. Qed.

Lemma str_in_head_false w s : str_in w s = false → startswith s w = false.
Proof.
  destruct s as [|c s]; cbn [str_in]; intros H; by apply orb_false_elim in H as [H _].
Qed.

Lemma re_sub_http_none url :
  str_in "http://" url = false → str_in "https://" url = false → re_sub_http url = url.
Proof.
  induction url as [|c url IH]; intros H1 H2; [done|].
  apply str_in_cons_false in H1 as [H1 H1'], H2 as [H2 H2'].
  cbn [re_sub_http]. rewrite H1, H2. by rewrite IH.
Qed.

(** X15. The normalization leaves every string unchanged that contains
    neither [http://] nor [https://]; it turns [http://] and
    [https://] followed by [r] into [r]; and what it returns is never
    longer than what it was given. *)
Theorem _remove_http_prefix_cases url :
  (str_in "http://" url = false → str_in "https://" url = false →
   _remove_http_prefix url = url) ∧
  _remove_http_prefix ("http://" +:+ url) = url ∧
  _remove_http_prefix ("https://" +:+ url) = url ∧
  (String.length (_remove_http_prefix url) ≤ String.length url)%nat.
Proof.
  split_and!.
  - intros H1 H2. unfold _remove_http_prefix.
    destruct (startswith url "http"); [by apply re_sub_http_none | done].
  - apply _remove_http_prefix_http.
  - apply _remove_http_prefix_https.
  - unfold _remove_http_prefix. destruct (startswith url "http"); [|done].
    clear. induction url as [|c url IH]; [done|].
    cbn [re_sub_http].
    destruct (startswith (String c url) "https://") eqn:E1.
    { apply startswith_spec in E1 as [r ->].
      change (str_drop 8 ("https://" +:+ r)) with r. rewrite length_append. lia. }
    destruct (startswith (String c url) "http://") eqn:E2.
    { apply startswith_spec in E2 as [r ->].
      change (str_drop 7 ("http://" +:+ r)) with r. rewrite length_append. lia. }
    simpl. lia.
Qed.


